(** * libsharp: ring geometries of [sharp_geomhelpers.c]

    A shallow embedding of [libsharp/sharp_geomhelpers.c] and the properties
    of its grid builders.

    Conventions of the embedding.
    - [int] is a 32-bit and [ptrdiff_t] a 64-bit two's complement integer
      (LP64); both are values of [Z], and every arithmetic result is brought
      back into range by [int32] / [int64].  The sums, differences and
      products of one C expression are wrapped once: wrapping commutes with
      [+], [-] and [*].
    - [double] is IEEE-754 binary64 with round-to-nearest-even on every
      operation (no wider intermediate format, no fused multiply-add):
      Rocq's primitive [float].  [sqrt] and [fabs] are the IEEE operations;
      [cos], [sin], [acos] and [asin] come from the C library and are the
      fields of a [libm] record the builders are parameterised by.
    - [UTIL_ASSERT(c,msg)] stops the process when [c] is false: the outcome
      [Aborted msg].
    - [RALLOC] provides the storage of the arrays, which are lists here, and
      stops the process when the request cannot be met, as for a negative
      count; [DEALLOC] has no effect on what a builder hands on.
    - Fresh storage and whatever lies outside an array hold an unspecified
      value, the parameter [uninit].
    - [sharp_make_geom_info] is external: a builder that reaches the call
      has the outcome [Returned g], [g] holding the arguments of the call. *)

From Stdlib Require Import ZArith Lia Floats String.
From stdpp Require Import base list.

Local Open Scope Z_scope.
Set Warnings "-inexact-float".

(** ** Machine integers *)

Definition wrap (bits : Z) (z : Z) : Z :=
  (z + 2 ^ (bits - 1)) mod 2 ^ bits - 2 ^ (bits - 1).

Definition int32 (z : Z) : Z := wrap 32 z.
Definition int64 (z : Z) : Z := wrap 64 z.

Definition INT_MAX : Z := 2147483647.

(** ** Doubles *)

(** Conversion of a C integer [|z| < 2^63] to [double]: exact below [2^53],
    rounded to nearest above (as [of_uint63] does). *)
Definition Z2F (z : Z) : float :=
  match z with
  | Z0 => 0%float
  | Zpos _ => PrimFloat.of_uint63 (Uint63.of_Z z)
  | Zneg p => (- PrimFloat.of_uint63 (Uint63.of_Z (Zpos p)))%float
  end.

(** The literal every function of the file declares as [pi]. *)
Definition pi : float := 0x1.921fb54442d18p+1%float.

(** The functions of the C library the file calls. *)
Record libm : Type := Libm {
  m_cos : float -> float;
  m_sin : float -> float;
  m_acos : float -> float;
  m_asin : float -> float
}.

(** Outcome of a computation that [UTIL_ASSERT] may stop. *)
Inductive outcome (A : Type) : Type :=
| Returned (a : A)
| Aborted (msg : string).
Arguments Returned {A} a.
Arguments Aborted {A} msg.

(** The loop [for (m=0; m<n; ++m) a[m] = f m] over a fresh array [a]. *)
Definition tabulate {A : Type} (n : Z) (f : Z -> A) : list A :=
  f <$> seqZ 0 n.

(** [a[i]] for a C index [i]. *)
Definition read (uninit : float) (a : list float) (i : Z) : float :=
  if (i <? 0)%Z then uninit else default uninit (a !! Z.to_nat i).

(** [a[i] = v] for a C index [i] inside the array. *)
Definition store (i : Z) (v : float) (a : list float) : list float :=
  <[Z.to_nat i := v]> a.

(** Modelled from the spec: array allocation is a utility outside the
    sources (c_utils); the spec takes memory for granted, the sizes being
    bounded by the ring count, so a request for a count that is not negative
    is met.  A negative count cannot be met: converted to [size_t] and
    multiplied by the size of an entry it asks for more than [2^63] bytes,
    and the allocation stops the process with ["malloc() failed"]. *)
Definition util_malloc_ (n : Z) : outcome unit :=
  if (n <? 0)%Z then Aborted "malloc() failed" else Returned tt.

(** [RALLOC(double,n)]: [n] doubles of unspecified content. *)
Definition RALLOC (uninit : float) (n : Z) : outcome (list float) :=
  match util_malloc_ n with
  | Aborted msg => Aborted msg
  | Returned _ => Returned (replicate (Z.to_nat n) uninit)
  end.

(** ** [gauss_legendre_tbl] *)

Module GaussLegendre.

Local Open Scope float_scope.

Definition eps : float := 3e-14.

(** The recurrence [for (k=2; k<=n; k++)]: [cnt] passes remain, [k] is the
    loop variable. *)
Fixpoint legendre (cnt : nat) (k : Z) (x0 P_1 P0 : float) : float * float :=
  match cnt with
  | O => (P_1, P0)
  | S cnt' =>
      let P_2 := P_1 in
      let P_1 := P0 in
      let P0 := x0 * P_1 + (Z2F k - 1) / Z2F k * (x0 * P_1 - P_2) in
      legendre cnt' (k + 1)%Z x0 P_1 P0
  end.

(** One pass of the [while(1)] body up to [x0 = x1]: the new [x0], the
    step [dx] and the derivative [dpdx]. *)
Definition newton_pass (n : Z) (x0 : float) : float * float * float :=
  let '(P_1, P0) := legendre (Z.to_nat (n - 1)) 2 x0 1 x0 in
  let dpdx := (x0 * P0 - P_1) * Z2F n / (x0 * x0 - 1) in
  let x1 := x0 - P0 / dpdx in
  let dx := x0 - x1 in
  (x1, dx, dpdx).

(** The [while(1)] loop.  [j] and [dobreak] are the variables of the
    source; [fuel] bounds the recursion and is never exhausted when it is
    at least [100 - j] (lemma [newton_node_fuel]). *)
Inductive loop_result : Type :=
| Done (x0 dpdx : float)
| Failed (msg : string)
| OutOfFuel.

Fixpoint newton_loop (fuel : nat) (n : Z) (x0 : float) (dobreak : bool)
    (j : Z) : loop_result :=
  match fuel with
  | O => OutOfFuel
  | S fuel' =>
      let '(x1, dx, dpdx) := newton_pass n x0 in
      if dobreak then Done x1 dpdx
      else
        let dobreak := if abs dx <=? eps then true else dobreak in
        let j := (j + 1)%Z in
        if (j <? 100)%Z then newton_loop fuel' n x1 dobreak j
        else Failed "convergence problem"
  end.

Definition newton_node (n : Z) (x0 : float) : loop_result :=
  newton_loop 100 n x0 false 0.

(** The values a pass works with, independently of the loop: [iterate p]
    is [x0] after [p] passes, [delta p] and [slope p] are [dx] and [dpdx]
    of pass [p] (passes are numbered from 1). *)
Fixpoint iterate (p : nat) (n : Z) (x0 : float) : float :=
  match p with
  | O => x0
  | S p' => fst (fst (newton_pass n (iterate p' n x0)))
  end.

Definition delta (p : nat) (n : Z) (x0 : float) : float :=
  snd (fst (newton_pass n (iterate (p - 1) n x0))).

Definition slope (p : nat) (n : Z) (x0 : float) : float :=
  snd (newton_pass n (iterate (p - 1) n x0)).

(** [fabs(dx) <= eps] on pass [p]. *)
Definition converged (p : nat) (n : Z) (x0 : float) : bool :=
  abs (delta p n x0) <=? eps.

(** [p] is the first pass with [fabs(dx) <= eps]. *)
Definition first_converged (p : nat) (n : Z) (x0 : float) : Prop :=
  (1 <= p)%nat /\ converged p n x0 = true /\
  forall q, (1 <= q < p)%nat -> converged q n x0 = false.

(** The same as a test that computes. *)
Definition first_convergedb (p : nat) (n : Z) (x0 : float) : bool :=
  (1 <=? p)%nat && converged p n x0 &&
  forallb (fun q => negb (converged q n x0)) (seq 1 (p - 1)).

(** [t0], [t1] and the start value of node [i]. *)
Definition t0 (n : Z) : float := 1 - (1 - 1 / Z2F n) / (8 * Z2F n * Z2F n).
Definition t1 (n : Z) : float := 1 / (4 * Z2F n + 2).

Definition seed (M : libm) (n i : Z) : float :=
  m_cos M (pi * Z2F (int32 (Z.shiftl i 2 - 1)) * t1 n) * t0 n.

(** The [i] loop of [gauss_legendre_tbl]: [cnt] nodes remain. *)
Fixpoint nodes_loop (M : libm) (cnt : nat) (i n : Z)
    (x w : list float) : outcome (list float * list float) :=
  match cnt with
  | O => Returned (x, w)
  | S cnt' =>
      let x0 := seed M n i in
      match newton_node n x0 with
      | Done x0 dpdx =>
          let x := store (i - 1) (- x0) x in
          let x := store (n - i) x0 x in
          let wi := 2 / ((1 - x0 * x0) * dpdx * dpdx) in
          let w := store (n - i) wi w in
          let w := store (i - 1) wi w in
          nodes_loop M cnt' (int32 (i + 1)) n x w
      | Failed msg => Aborted msg
      | OutOfFuel => Aborted "out of fuel"
      end
  end.

Definition gauss_legendre_tbl (M : libm) (n : Z) (x w : list float)
    : outcome (list float * list float) :=
  let m := Z.shiftr (int32 (n + 1)) 1 in
  nodes_loop M (Z.to_nat m) 1 n x w.

(** The entries [j < k] of [x] and [w] that have a mirror image
    [n-1-j > j] are paired with it: [x[j] = -x[n-1-j]], [w[j] = w[n-1-j]]. *)
Definition mirrored_upto (n k : Z) (x w : list float) : Prop :=
  forall j : Z, (0 <= j < k)%Z -> (j < n - 1 - j)%Z ->
  exists v wv : float,
    x !! Z.to_nat j = Some (- v) /\ x !! Z.to_nat (n - 1 - j) = Some v /\
    w !! Z.to_nat j = Some wv /\ w !! Z.to_nat (n - 1 - j) = Some wv.

(** An entry [j < k] of [x] that is its own mirror image holds what the
    Newton loop returned for the start value of node [j+1]. *)
Definition middle_upto (M : libm) (n k : Z) (x : list float) : Prop :=
  forall j : Z, (0 <= j < k)%Z -> (j = n - 1 - j)%Z ->
  exists v dpdx : float,
    newton_node n (seed M n (j + 1)) = Done v dpdx /\
    x !! Z.to_nat j = Some v.

(** Entry [j] of [x] and [w] holds what the Newton loop returned for the
    node it belongs to, node [min j (n-1-j) + 1]: the node, negated in the
    lower half, and its weight. *)
Definition entry_of (M : libm) (n j : Z) (x w : list float) : Prop :=
  exists v dpdx : float,
    newton_node n (seed M n (Z.min j (n - 1 - j) + 1)%Z) = Done v dpdx /\
    x !! Z.to_nat j = Some (if (j <? n - 1 - j)%Z then - v else v) /\
    w !! Z.to_nat j = Some (2 / ((1 - v * v) * dpdx * dpdx)).



End GaussLegendre.

(** ** The grid builders *)

(** One ring as a builder hands it to [sharp_make_geom_info]: entry [m] of
    the arrays [theta], [nph], [phi0], [ofs], [stride_] and [weight]. *)
Record ring : Type := Ring {
  theta : float;
  nph : Z;
  phi0 : float;
  ofs : Z;
  stride_ : Z;
  weight : float
}.

(** The arguments of [sharp_make_geom_info]. *)
Record geom_args : Type := GeomArgs {
  nrings : Z;
  rings : list ring
}.

(** [eps(j,J)] of the Keiner-Potts weights. *)
Definition eps (j J : Z) : float :=
  if (j =? 0) || (j =? J) then 0.5%float
  else if (0 <? j) && (j <? J) then 1%float
  else 0%float.

Section Builders.

Context (M : libm) (uninit : float).

Local Open Scope float_scope.

(** The body of the ring loop of [sharp_make_weighted_healpix_geom_info]. *)
Definition healpix_ring (nside stride : Z) (weight : list float)
    (npix ncap : Z) (m : Z) : ring :=
  let ring := int32 (m + 1) in
  let northring :=
    if (ring >? int32 (2 * nside))%Z then int32 (int32 (4 * nside) - ring)
    else ring in
  let '(theta, nph, phi0, ofs) :=
    if (northring <? nside)%Z then
      let theta := 2 * m_asin M (Z2F northring / (sqrt 6 * Z2F nside)) in
      let nph := int32 (int64 (4 * northring)) in
      let phi0 := pi / Z2F nph in
      let ofs := int64 (2 * northring * (northring - 1) * stride) in
      (theta, nph, phi0, ofs)
    else
      let fact1 := (8 * Z2F nside) / Z2F npix in
      let costheta := Z2F (int64 (int32 (2 * nside) - northring)) * fact1 in
      let theta := m_acos M costheta in
      let nph := int32 (4 * nside) in
      let phi0 :=
        if negb (Z.land (int64 (northring - nside)) 1 =? 0)%Z then 0
        else pi / Z2F nph in
      let ofs := int64 ((ncap + (northring - nside) * nph) * stride) in
      (theta, nph, phi0, ofs) in
  let '(theta, ofs) :=
    if negb (northring =? ring)%Z then
      (pi - theta, int64 ((npix - nph) * stride - ofs))
    else (theta, ofs) in
  Ring theta nph phi0 ofs stride
       (4 * pi / Z2F npix * read uninit weight (int64 (northring - 1))).

Definition sharp_make_weighted_healpix_geom_info (nside stride : Z)
    (weight : list float) : outcome geom_args :=
  let npix := int64 (nside * nside * 12) in
  let ncap := int64 (2 * nside * int32 (nside - 1)) in
  let nrings := int32 (4 * nside - 1) in
  (* theta, weight_, nph, phi0, ofs, stride_: six requests for nrings
     entries, every entry written by the loop *)
  match util_malloc_ nrings with
  | Aborted msg => Aborted msg
  | Returned _ =>
      Returned (GeomArgs nrings
        (tabulate nrings (healpix_ring nside stride weight npix ncap)))
  end.

Definition sharp_make_healpix_geom_info (nside stride : Z) : outcome geom_args :=
  match RALLOC uninit (int32 (2 * nside)) with
  | Aborted msg => Aborted msg
  | Returned _ =>
      (* SET_ARRAY(weight,0,2*nside,1) *)
      let weight := replicate (Z.to_nat (int32 (2 * nside))) 1 in
      sharp_make_weighted_healpix_geom_info nside stride weight
  end.

(** [makeweights]: the inner sum over [k], then the loop over [j]. *)
Fixpoint makeweights_sum (cnt : nat) (k j : Z) (fudge tmpsum : float) : float :=
  match cnt with
  | O => tmpsum
  | S cnt' =>
      let tmpsum :=
        tmpsum + 1 / Z2F (int32 (2 * k + 1))
                 * m_sin M (Z2F (int32 ((2 * j + 1) * (2 * k + 1))) * fudge) in
      makeweights_sum cnt' (k + 1)%Z j fudge tmpsum
  end.

Definition makeweights_entry (bw : Z) (j : Z) : float :=
  let fudge := pi / Z2F (int32 (4 * bw)) in
  let tmpsum := makeweights_sum (Z.to_nat bw) 0 j fudge 0 in
  let tmpsum := tmpsum * m_sin M (Z2F (int32 (2 * j + 1)) * fudge) in
  let tmpsum := tmpsum * (2 / Z2F bw) in
  tmpsum.

Fixpoint makeweights_loop (cnt : nat) (j bw : Z) (weights : list float)
    : list float :=
  match cnt with
  | O => weights
  | S cnt' =>
      makeweights_loop cnt' (j + 1)%Z bw (store j (makeweights_entry bw j) weights)
  end.

Definition makeweights (bw : Z) (weights : list float) : list float :=
  makeweights_loop (Z.to_nat (int32 (2 * bw))) 0 bw weights.

Definition sharp_make_gauss_geom_info (nrings nphi stride_lon stride_lat : Z)
    : outcome geom_args :=
  match RALLOC uninit nrings with
  | Aborted msg => Aborted msg
  | Returned theta =>
  match RALLOC uninit nrings with
  | Aborted msg => Aborted msg
  | Returned weight =>
  match GaussLegendre.gauss_legendre_tbl M nrings theta weight with
  | Aborted msg => Aborted msg
  | Returned (theta, weight) =>
      Returned (GeomArgs nrings
        (tabulate nrings (fun m =>
           Ring (m_acos M (- read uninit theta m)) nphi 0
                (int64 (m * stride_lat)) stride_lon
                (read uninit weight m * (2 * pi / Z2F nphi)))))
  end end end.

(** The requests for storage come first in the source; they fail for a
    negative count only, and the model looks at the sign of the count after
    its parity: either way the process stops before
    [sharp_make_geom_info]. *)
Definition sharp_make_ecp_geom_info (nrings nphi : Z) (phi0 : float)
    (stride_lon stride_lat : Z) : outcome geom_args :=
  if negb (Z.land nrings 1 =? 0)%Z then
    Aborted "Even number of rings needed for equidistant grid!"
  else
    match RALLOC uninit nrings with
    | Aborted msg => Aborted msg
    | Returned weight =>
        let weight := makeweights (Z.quot nrings 2) weight in
        Returned (GeomArgs nrings
          (tabulate nrings (fun m =>
             Ring ((Z2F m + 0.5) * pi / Z2F nrings) nphi phi0
                  (int64 (m * stride_lat)) stride_lon
                  (read uninit weight m * (2 * pi / Z2F nphi)))))
    end.

(** The sum over [l] in the ring loop of [sharp_make_hw_geom_info]. *)
Fixpoint hw_sum (cnt : nat) (l lmax m : Z) (wgt : float) : float :=
  match cnt with
  | O => wgt
  | S cnt' =>
      let wgt :=
        wgt + eps l lmax / Z2F (int32 (1 - 4 * l * l))
              * m_cos M ((pi * Z2F m * Z2F l) / Z2F lmax) in
      hw_sum cnt' (l + 1)%Z lmax m wgt
  end.

Definition hw_theta (nrings m : Z) : float :=
  let theta := pi * Z2F m / (Z2F nrings - 1) in
  let theta := if theta <? 1e-15 then 1e-15 else theta in
  let theta := if pi - 1e-15 <? theta then pi - 1e-15 else theta in
  theta.

Definition hw_weight (lmax ppring m : Z) : float :=
  let prefac := 4 * pi * eps m (int32 (2 * lmax)) / Z2F lmax in
  let wgt := hw_sum (Z.to_nat (lmax + 1)) 0 lmax m 0 in
  prefac * wgt / Z2F ppring.

(** As in [sharp_make_ecp_geom_info], the sign of the count is looked at
    after its parity. *)
Definition sharp_make_hw_geom_info (nrings ppring : Z) (phi0 : float)
    (stride_lon stride_lat : Z) : outcome geom_args :=
  if negb (Z.land nrings 1 =? 1)%Z then
    Aborted "nrings must be an odd number"
  else
    match util_malloc_ nrings with
    | Aborted msg => Aborted msg
    | Returned _ =>
        let lmax := Z.quot (int32 (nrings - 1)) 2 in
        Returned (GeomArgs nrings
          (tabulate nrings (fun m =>
             Ring (hw_theta nrings m) ppring phi0
                  (int64 (m * stride_lat)) stride_lon
                  (hw_weight lmax ppring m))))
    end.

End Builders.

(** ** Pixel ranges of a geometry *)

(** Ring [r] holds pixel [p]: [ofs <= p < ofs + nph] (stride 1). *)
Definition covers (r : ring) (p : Z) : Prop :=
  ofs r <= p < ofs r + nph r.

(** The sum of [nph] over the rings. *)
Definition total_pixels (rs : list ring) : Z :=
  foldr (fun r acc => nph r + acc) 0 rs.

(** [northring] of the HEALPix ring with index [m], without wrap-around. *)
Definition hp_northring (nside m : Z) : Z :=
  if m + 1 >? 2 * nside then 4 * nside - (m + 1) else m + 1.

(** The number of pixels on the HEALPix rings before ring [m]. *)
Definition hp_start (nside m : Z) : Z :=
  if m <? nside then 2 * m * (m + 1)
  else if m <? 3 * nside
       then 2 * nside * (nside - 1) + (m - (nside - 1)) * (4 * nside)
       else 12 * nside * nside - 2 * (4 * nside - 1 - m) * (4 * nside - m).

(** [0 <= phi < 2*pi] as the doubles compare. *)
Definition in_0_2pi (phi : float) : bool :=
  ((0 <=? phi) && (phi <? 2 * pi))%float.



(** ** A C library for the examples *)

(** [cos] at the arguments the examples evaluate: the 30 seeds of order 59
    and the multiples of [pi] of a three-ring equiangular grid, each with
    its correctly rounded value. *)
Definition cos_table : list (float * float) :=
  [(0, 1);
   (0x1.921fb54442d18p+1, -1);
   (0x1.921fb54442d18p+2, 1);
   (0x1.44670666653b4p-5, 0x1.ff993e33af903p-1);
   (0x1.7a78322220c53p-4, 0x1.fdd0deb564b22p-1);
   (0x1.295e708887765p-3, 0x1.fa9cbbf1c01e6p-1);
   (0x1.9580c7fffe8a1p-3, 0x1.f5ff1f173e2b7p-1);
   (0x1.00d18fbbbacefp-2, 0x1.effb533ff0d71p-1);
   (0x1.36e2bb777658dp-2, 0x1.e895a317ee4c3p-1);
   (0x1.6cf3e73331e2bp-2, 0x1.dfd355cd64c6cp-1);
   (0x1.a30512eeed6c9p-2, 0x1.d5baab4c832c9p-1);
   (0x1.d9163eaaa8f67p-2, 0x1.ca52d7c9e640bp-1);
   (0x1.0793b53332402p-1, 0x1.bda3fe9eb8fa9p-1);
   (0x1.229c4b1110052p-1, 0x1.afb72c7a32e5cp-1);
   (0x1.3da4e0eeedca1p-1, 0x1.a09650ec99325p-1);
   (0x1.58ad76cccb8f0p-1, 0x1.904c37505de4bp-1);
   (0x1.73b60caaa953fp-1, 0x1.7ee47f166c1a2p-1);
   (0x1.8ebea2888718ep-1, 0x1.6c6b937b20383p-1);
   (0x1.a9c7386664dddp-1, 0x1.58eea2a9d6da3p-1);
   (0x1.c4cfce4442a2cp-1, 0x1.447b9455650f6p-1);
   (0x1.dfd864222067bp-1, 0x1.2f20ffcc2fba2p-1);
   (0x1.fae0f9fffe2cap-1, 0x1.18ee218ef656cp-1);
   (0x1.0af4c7eeedf8dp+0, 0x1.01f2d071bed44p-1);
   (0x1.187912dddcdb4p+0, 0x1.d47ee49d4890cp-2);
   (0x1.25fd5dcccbbdbp+0, 0x1.a3c9e0a531a94p-2);
   (0x1.3381a8bbbaa03p+0, 0x1.71e955d8e7cdep-2);
   (0x1.4105f3aaa982bp+0, 0x1.3f00dacdd1b3dp-2);
   (0x1.4e8a3e9998653p+0, 0x1.0b34c26c7d5dfp-2);
   (0x1.5c0e898887479p+0, 0x1.ad54040b601b3p-3);
   (0x1.6992d477762a1p+0, 0x1.430c2de729a01p-3);
   (0x1.77171f66650c9p+0, 0x1.afbbaf676a163p-4);
   (0x1.849b6a5553ef1p+0, 0x1.b055ecbebb755p-5);
   (0x1.921fb54442d17p+0, 0x1.469898cc51702p-52)]%float.

(** [sin] at the arguments of [makeweights 1]. *)
Definition sin_table : list (float * float) :=
  [(0x1.921fb54442d18p-1, 0x1.6a09e667f3bccp-1);
   (0x1.2d97c7f3321d2p+1, 0x1.6a09e667f3bcdp-1)]%float.

(** A function given by a table; any other argument yields [nan]. *)
Fixpoint tabulated (t : list (float * float)) (x : float) : float :=
  match t with
  | [] => nan
  | (a, v) :: t' => if (x =? a)%float then v else tabulated t' x
  end.

Definition libm_ref : libm :=
  Libm (tabulated cos_table) (tabulated sin_table)
       (tabulated []) (tabulated []).

(** * Properties *)

(** ** Machine integers and arrays *)

Lemma int32_small (z : Z) : - 2 ^ 31 <= z < 2 ^ 31 -> int32 z = z.
Proof.
  intros H. unfold int32, wrap.
  rewrite Z.mod_small by (simpl; lia). simpl; lia.
Qed.

Lemma int64_small (z : Z) : - 2 ^ 63 <= z < 2 ^ 63 -> int64 z = z.
Proof.
  intros H. unfold int64, wrap.
  rewrite Z.mod_small by (simpl; lia). simpl; lia.
Qed.

Lemma int32_range (z : Z) : - 2 ^ 31 <= int32 z < 2 ^ 31.
Proof.
  unfold int32, wrap.
  pose proof (Z.mod_pos_bound (z + 2 ^ (32 - 1)) (2 ^ 32) ltac:(lia)).
  simpl in *. lia.
Qed.

Lemma land_1_odd (z : Z) : Z.land z 1 = if Z.odd z then 1 else 0.
Proof. change 1 with (Z.ones 1) at 1. rewrite Z.land_ones by lia. apply Zmod_odd. Qed.

Ltac unwrap :=
  repeat match goal with
  | |- context [int32 ?z] => rewrite (int32_small z) by (simpl; nia)
  | |- context [int64 ?z] => rewrite (int64_small z) by (simpl; nia)
  end.

Lemma lookup_tabulate {A : Type} (n : Z) (f : Z -> A) (i : nat) (a : A) :
  tabulate n f !! i = Some a <-> a = f (Z.of_nat i) /\ Z.of_nat i < n.
Proof.
  unfold tabulate. rewrite list_lookup_fmap, fmap_Some. split.
  - intros (m & (-> & Hi)%lookup_seqZ & ->). split; [f_equal; lia|exact Hi].
  - intros (-> & Hi). exists (Z.of_nat i). split; [|reflexivity].
    apply lookup_seqZ. split; [lia|exact Hi].
Qed.

Lemma length_tabulate {A : Type} (n : Z) (f : Z -> A) :
  length (tabulate n f) = Z.to_nat n.
Proof. unfold tabulate. rewrite length_fmap. apply length_seqZ. Qed.

Lemma tabulate_1 {A : Type} (f : Z -> A) : tabulate 1 f = [f 0%Z].
Proof. reflexivity. Qed.

Lemma util_malloc_nonneg (n : Z) : 0 <= n -> util_malloc_ n = Returned tt.
Proof.
  intros Hn. unfold util_malloc_. destruct (n <? 0) eqn:E; [lia|reflexivity].
Qed.

Lemma util_malloc_negative (n : Z) :
  n < 0 -> util_malloc_ n = Aborted "malloc() failed".
Proof.
  intros Hn. unfold util_malloc_. destruct (n <? 0) eqn:E; [reflexivity|lia].
Qed.

Lemma util_malloc_Returned (n : Z) (u : unit) :
  util_malloc_ n = Returned u -> 0 <= n.
Proof.
  unfold util_malloc_. destruct (n <? 0) eqn:E; [discriminate|lia].
Qed.

Lemma RALLOC_nonneg (uninit : float) (n : Z) :
  0 <= n -> RALLOC uninit n = Returned (replicate (Z.to_nat n) uninit).
Proof. intros Hn. unfold RALLOC. rewrite util_malloc_nonneg by exact Hn. reflexivity. Qed.

Lemma RALLOC_negative (uninit : float) (n : Z) :
  n < 0 -> RALLOC uninit n = Aborted "malloc() failed".
Proof. intros Hn. unfold RALLOC. rewrite util_malloc_negative by exact Hn. reflexivity. Qed.

(** What a request that is met hands out. *)
Lemma RALLOC_Returned (uninit : float) (n : Z) (a : list float) :
  RALLOC uninit n = Returned a ->
  0 <= n /\ a = replicate (Z.to_nat n) uninit.
Proof.
  intros H. destruct (Z.lt_ge_cases n 0) as [Hneg|Hpos].
  - rewrite RALLOC_negative in H by exact Hneg. discriminate.
  - rewrite RALLOC_nonneg in H by exact Hpos. injection H as <-.
    split; [exact Hpos|reflexivity].
Qed.

Lemma tabulate_ext {A : Type} (n : Z) (f g : Z -> A) :
  (forall m, 0 <= m < n -> f m = g m) -> tabulate n f = tabulate n g.
Proof.
  intros H. unfold tabulate. apply list_eq. intros i.
  rewrite !list_lookup_fmap.
  destruct (seqZ 0 n !! i) as [m|] eqn:E; [|reflexivity].
  apply lookup_seqZ in E. simpl. f_equal. apply H. lia.
Qed.

Lemma read_lookup (u v : float) (a : list float) (i : Z) :
  0 <= i -> a !! Z.to_nat i = Some v -> read u a i = v.
Proof.
  intros Hi Ha. unfold read. destruct (i <? 0) eqn:E; [lia|].
  rewrite Ha. reflexivity.
Qed.

Lemma read_in_bounds (u1 u2 : float) (w1 w2 : list float) (k bound : Z) :
  0 <= k < bound -> (Z.to_nat bound <= length w1)%nat ->
  (forall j : nat, (j < Z.to_nat bound)%nat -> w1 !! j = w2 !! j) ->
  read u1 w1 k = read u2 w2 k.
Proof.
  intros Hk Hlen Hw. unfold read.
  destruct (k <? 0) eqn:E; [lia|].
  rewrite <- (Hw (Z.to_nat k)) by lia.
  destruct (lookup_lt_is_Some_2 w1 (Z.to_nat k)) as [v ->]; [lia|].
  reflexivity.
Qed.

Lemma scaled_in_range (a K s B : Z) :
  0 <= a <= K -> K * Z.abs s < B -> - B < a * s < B.
Proof. intros Ha HK. destruct (Z.abs_spec s) as [[? Hs]|[? Hs]]; rewrite Hs in HK; nia. Qed.

Lemma half_bounds (n : Z) :
  2 * ((n + 1) / 2) <= n + 1 < 2 * ((n + 1) / 2) + 2.
Proof.
  pose proof (Z.div_mod (n + 1) 2). pose proof (Z.mod_pos_bound (n + 1) 2). lia.
Qed.

(** ** Doubles through their specification *)

Section FloatFacts.

Local Open Scope float_scope.

Lemma SFcompare_refl_finite (s : bool) (m : positive) (e : Z) :
  SFcompare (S754_finite s m e) (S754_finite s m e) = Some Eq.
Proof.
  simpl. rewrite Z.compare_refl, Pos.compare_cont_refl.
  destruct s; reflexivity.
Qed.

Lemma is_finite_spec (x : float) :
  is_finite x =
  match Prim2SF x with
  | S754_nan | S754_infinity _ => false
  | _ => true
  end.
Proof.
  unfold is_finite, is_nan, is_infinity.
  rewrite !FloatAxioms.eqb_spec, abs_spec.
  change (Prim2SF infinity) with (S754_infinity false).
  destruct (Prim2SF x) as [s|s| |s m e]; try (destruct s; reflexivity);
    try reflexivity.
  unfold SFeqb. rewrite SFcompare_refl_finite. reflexivity.
Qed.

(** An infinite factor leaves no finite quotient. *)
Lemma infinity_mul_div_not_finite (y p : float) :
  is_finite (infinity * y / p) = false.
Proof.
  rewrite is_finite_spec, div_spec, mul_spec.
  change (Prim2SF infinity) with (S754_infinity false).
  destruct (Prim2SF y) as [sy|sy| |sy my ey];
    destruct (Prim2SF p) as [sp|sp| |sp mp ep]; reflexivity.
Qed.

Lemma opp_involutive (x : float) : - - x = x.
Proof.
  apply Prim2SF_inj. rewrite !opp_spec.
  destruct (Prim2SF x) as [s|s| |s m e]; simpl; rewrite ?negb_involutive;
    reflexivity.
Qed.

Lemma mul_infinity_not_finite (x : float) : is_finite (x * infinity) = false.
Proof.
  rewrite is_finite_spec, mul_spec.
  change (Prim2SF infinity) with (S754_infinity false).
  destruct (Prim2SF x) as [s|s| |s m e]; reflexivity.
Qed.

Lemma div_zero_not_finite (x : float) : is_finite (x / 0) = false.
Proof.
  rewrite is_finite_spec, div_spec.
  change (Prim2SF 0) with (S754_zero false).
  destruct (Prim2SF x) as [s|s| |s m e]; reflexivity.
Qed.

Lemma nan_mul_l (y : float) : nan * y = nan.
Proof.
  apply Prim2SF_inj. rewrite mul_spec. change (Prim2SF nan) with S754_nan.
  destruct (Prim2SF y) as [s|s| |s m e]; reflexivity.
Qed.

Lemma nan_add_l (y : float) : nan + y = nan.
Proof.
  apply Prim2SF_inj. rewrite add_spec. change (Prim2SF nan) with S754_nan.
  destruct (Prim2SF y) as [s|s| |s m e]; reflexivity.
Qed.

Lemma nan_sub_l (y : float) : nan - y = nan.
Proof.
  apply Prim2SF_inj. rewrite sub_spec. change (Prim2SF nan) with S754_nan.
  destruct (Prim2SF y) as [s|s| |s m e]; reflexivity.
Qed.

Lemma nan_div_l (y : float) : nan / y = nan.
Proof.
  apply Prim2SF_inj. rewrite div_spec. change (Prim2SF nan) with S754_nan.
  destruct (Prim2SF y) as [s|s| |s m e]; reflexivity.
Qed.

End FloatFacts.

Lemma SFcompare_antisym (x y : spec_float) :
  SFcompare y x = option_map CompOpp (SFcompare x y).
Proof.
  destruct x as [sx|sx| |sx mx ex], y as [sy|sy| |sy my ey]; simpl;
    try reflexivity; try (destruct sx; reflexivity);
    try (destruct sy; reflexivity); try (destruct sx, sy; reflexivity).
  rewrite (Z.compare_antisym ex ey).
  assert (Hm : Pos.compare_cont Eq my mx = CompOpp (Pos.compare_cont Eq mx my))
    by (rewrite Pos.compare_cont_antisym; reflexivity).
  rewrite Hm.
  destruct sx, sy, (ex ?= ey); simpl; rewrite ?CompOpp_involutive;
    reflexivity.
Qed.

(** Among doubles that are numbers, [x < y] fails only when [y <= x]. *)
Lemma ltb_false_leb (x y : float) :
  is_nan x = false -> is_nan y = false ->
  (x <? y)%float = false -> (y <=? x)%float = true.
Proof.
  unfold is_nan. rewrite !FloatAxioms.eqb_spec, ltb_spec, leb_spec.
  unfold SFeqb, SFltb, SFleb.
  rewrite (SFcompare_antisym (Prim2SF x) (Prim2SF y)).
  intros Hx Hy. destruct (SFcompare (Prim2SF x) (Prim2SF y)) as [[]|] eqn:Hc;
    simpl; try reflexivity; try discriminate.
  destruct (Prim2SF x) as [sx|sx| |sx mx ex], (Prim2SF y) as [sy|sy| |sy my ey];
    simpl in *; try discriminate.
Qed.



Lemma is_nan_spec (x : float) :
  is_nan x = match Prim2SF x with S754_nan => true | _ => false end.
Proof.
  unfold is_nan. rewrite FloatAxioms.eqb_spec. unfold SFeqb.
  destruct (Prim2SF x) as [s|s| |s m e]; try (destruct s; reflexivity);
    try reflexivity.
  rewrite SFcompare_refl_finite. reflexivity.
Qed.

(** ** Rounding in binary64 *)

Section Binary64.

Lemma digits2_pos_size (p : positive) : digits2_pos p = Pos.size p.
Proof. induction p as [p IH|p IH|]; simpl; congruence. Qed.

Lemma Zdigits2_nonneg (m : Z) : 0 <= Zdigits2 m.
Proof. destruct m; simpl; lia. Qed.

(** A number below [2^b] has at most [b] binary digits. *)
Lemma Zdigits2_le (m b : Z) : 0 <= m < 2 ^ b -> 0 <= b -> Zdigits2 m <= b.
Proof.
  intros [Hm Hlt] Hb. destruct m as [|p|p]; simpl; [lia| |lia].
  rewrite digits2_pos_size.
  pose proof (Pos.size_le p) as Hsize.
  apply Pos2Z.pos_le_pos in Hsize. rewrite Pos2Z.inj_pow in Hsize.
  change (Z.pos p~0) with (2 * Z.pos p) in Hsize.
  assert (Hpow : 2 ^ Z.pos (Pos.size p) < 2 ^ (b + 1)).
  { rewrite Z.pow_add_r by lia. lia. }
  apply Z.pow_lt_mono_r_iff in Hpow; lia.
Qed.

(** A positive number is below [2] to the number of its digits. *)
Lemma Zdigits2_gt (p : positive) : Z.pos p < 2 ^ Zdigits2 (Z.pos p).
Proof.
  simpl. rewrite digits2_pos_size.
  pose proof (Pos.size_gt p) as Hsize.
  apply Pos2Z.pos_lt_pos in Hsize. rewrite Pos2Z.inj_pow in Hsize. exact Hsize.
Qed.

Lemma Zdigits2_ge (p : positive) : (2 ^ (Zdigits2 (Z.pos p) - 1) <= Z.pos p)%Z.
Proof.
  simpl. rewrite digits2_pos_size.
  pose proof (Pos.size_le p) as Hsize.
  apply Pos2Z.pos_le_pos in Hsize. rewrite Pos2Z.inj_pow in Hsize.
  change (Z.pos p~0) with (2 * Z.pos p)%Z in Hsize.
  replace (Z.pos (Pos.size p)) with (Z.pos (Pos.size p) - 1 + 1)%Z in Hsize
    by lia.
  rewrite Z.pow_add_r in Hsize by lia. lia.
Qed.

Lemma digits2_pos_iter_xO (p d : positive) :
  digits2_pos (Pos.iter xO p d) = (digits2_pos p + d)%positive.
Proof.
  induction d as [|d IH] using Pos.peano_ind.
  - simpl. lia.
  - rewrite Pos.iter_succ. simpl. rewrite IH. lia.
Qed.

Lemma iter_pos_invariant {A : Type} (f : A -> A) (P : A -> Prop) :
  (forall a, P a -> P (f a)) ->
  forall (p : positive) (a : A), P a -> P (SpecFloat.iter_pos f p a).
Proof.
  intros Hf. induction p as [p IH|p IH|]; intros a Ha; simpl; auto.
Qed.

Lemma shr_1_bound (b : Z) (mrs : shr_record) :
  0 <= shr_m mrs <= b -> 0 <= shr_m (shr_1 mrs) <= b.
Proof.
  destruct mrs as [m r s]. simpl. intros Hm.
  destruct m as [|[p|p|]|[p|p|]]; simpl; lia.
Qed.

Lemma shr_record_of_loc_m (m : Z) (l : location) :
  shr_m (shr_record_of_loc m l) = m.
Proof. destruct l as [|[]]; reflexivity. Qed.

(** [shr_fexp] keeps the mantissa between 0 and what it was and raises the
    exponent to that of the format. *)
Lemma shr_fexp_bound (m e : Z) (l : location) (mrs : shr_record) (e1 : Z) :
  0 <= m ->
  shr_fexp prec emax m e l = (mrs, e1) ->
  0 <= shr_m mrs <= m /\ e1 = Z.max e (fexp prec emax (Zdigits2 m + e)).
Proof.
  intros Hm. unfold shr_fexp, shr.
  destruct (fexp prec emax (Zdigits2 m + e) - e) as [|p|p] eqn:Hn;
    intros [= <- <-].
  - rewrite shr_record_of_loc_m. lia.
  - split; [|lia].
    apply (iter_pos_invariant shr_1 (fun r => 0 <= shr_m r <= m)).
    + apply shr_1_bound.
    + rewrite shr_record_of_loc_m. lia.
  - rewrite shr_record_of_loc_m. lia.
Qed.

Lemma round_nearest_even_bound (m : Z) (l : location) :
  m <= round_nearest_even m l <= m + 1.
Proof. destruct l as [|[]]; simpl; try lia. destruct (Z.even m); lia. Qed.

(** The rounding of a mantissa [0 <= m < 2^b] with exponent [e] and sign
    [s] is a zero or a finite number of sign [s], whose exponent is bounded
    through [b] and [e], or an infinity when that bound is above the
    largest exponent. *)
Lemma binary_round_aux_bound (s : bool) (m e : Z) (l : location) (b : Z) :
  0 <= m < 2 ^ b -> 53 <= b -> -1074 <= e ->
  match binary_round_aux prec emax s m e l with
  | S754_zero s' => s' = s
  | S754_finite s' _ e' => s' = s /\ e' <= e + 2 * (b - 53) + 1
  | S754_infinity _ => 971 < e + 2 * (b - 53) + 1
  | S754_nan => False
  end.
Proof.
  intros Hm Hb He. unfold binary_round_aux.
  destruct (shr_fexp prec emax m e l) as [mrs' e1] eqn:H1.
  apply shr_fexp_bound in H1 as [Hm1 He1]; [|lia].
  pose proof (round_nearest_even_bound (shr_m mrs') (loc_of_shr_record mrs'))
    as Hr.
  destruct (shr_fexp prec emax
              (round_nearest_even (shr_m mrs') (loc_of_shr_record mrs'))
              e1 loc_Exact) as [mrs'' e2] eqn:H2.
  apply shr_fexp_bound in H2 as [Hm2 He2]; [|lia].
  pose proof (Zdigits2_le m b) as Hd1.
  pose proof (Zdigits2_le
                (round_nearest_even (shr_m mrs') (loc_of_shr_record mrs'))
                (b + 1)) as Hd2.
  rewrite Z.pow_add_r in Hd2 by lia.
  pose proof (Zdigits2_nonneg m).
  pose proof (Zdigits2_nonneg
                (round_nearest_even (shr_m mrs') (loc_of_shr_record mrs'))).
  unfold fexp, emin in He1, He2.
  change prec with 53 in *. change emax with 1024 in *.
  assert (He2' : e2 <= e + 2 * (b - 53) + 1) by lia.
  destruct (shr_m mrs'') as [|p|p] eqn:Hsm.
  - reflexivity.
  - destruct (Z.leb_spec e2 (1024 - 53)); [split; [reflexivity|lia]|lia].
  - lia.
Qed.

(** A canonical mantissa is not changed by rounding. *)
Lemma binary_round_aux_exact (s : bool) (m : positive) (e : Z) :
  canonical_mantissa prec emax m e = true -> e <= emax - prec ->
  binary_round_aux prec emax s (Z.pos m) e loc_Exact = S754_finite s m e.
Proof.
  unfold canonical_mantissa. intros Hcan%Z.eqb_eq Hle.
  unfold binary_round_aux, shr_fexp. simpl Zdigits2. rewrite Hcan, Z.sub_diag.
  simpl. rewrite Hcan, Z.sub_diag. simpl.
  destruct (Z.leb_spec e (emax - prec)); [reflexivity|lia].
Qed.

(** The double of an integer [0 < k < 2^52]: a mantissa of 53 digits with
    the exponent that makes it [k]. *)
Lemma Prim2SF_Z2F (k : Z) :
  0 < k < 2 ^ 52 ->
  exists my : positive,
    Prim2SF (Z2F k) = S754_finite false my (Zdigits2 k - 53) /\
    Zdigits2 (Z.pos my) = 53.
Proof.
  intros Hk. destruct k as [|p|p]; try lia. unfold Z2F.
  rewrite of_uint63_spec, Uint63.of_Z_spec.
  rewrite Z.mod_small by (change Uint63.wB with (2 ^ 63); lia).
  pose proof (Zdigits2_le (Z.pos p) 52) as Hd. simpl Zdigits2 in *.
  unfold binary_normalize, binary_round, shl_align.
  unfold fexp, emin. change prec with 53. change emax with 1024.
  rewrite Z.add_0_r, Z.sub_0_r.
  rewrite Z.max_l by lia.
  destruct (Z.pos (digits2_pos p) - 53) as [|d|d] eqn:Hshift; try lia.
  exists (Pos.iter xO p d).
  assert (Hdig : digits2_pos (Pos.iter xO p d) = 53%positive).
  { rewrite digits2_pos_iter_xO. lia. }
  split; [|simpl; rewrite Hdig; reflexivity].
  apply binary_round_aux_exact.
  - unfold canonical_mantissa, fexp, emin. rewrite Hdig.
    change prec with 53. change emax with 1024. apply Z.eqb_eq. lia.
  - change prec with 53. change emax with 1024. lia.
Qed.

End Binary64.

Lemma shr_1_half (mrs : shr_record) :
  0 <= shr_m mrs -> shr_m (shr_1 mrs) = shr_m mrs / 2.
Proof.
  destruct mrs as [m r s]. cbn [shr_m]. intros Hm.
  destruct m as [|[p|p|]|p]; unfold shr_1; cbn [shr_m]; try lia.
  - reflexivity.
  - apply (Z.div_unique _ _ _ 1); lia.
  - apply (Z.div_unique _ _ _ 0); lia.
  - reflexivity.
Qed.

(** [p] shifts to the right divide the mantissa by [2^p]. *)
Lemma shr_m_iter (p : positive) :
  forall mrs : shr_record,
    0 <= shr_m mrs ->
    shr_m (SpecFloat.iter_pos shr_1 p mrs) = shr_m mrs / 2 ^ Z.pos p.
Proof.
  induction p as [p IH|p IH|]; intros mrs Hm; simpl SpecFloat.iter_pos.
  - assert (Hpow : 0 < 2 ^ Z.pos p) by (apply Z.pow_pos_nonneg; lia).
    assert (H1 : 0 <= shr_m (shr_1 mrs))
      by (rewrite shr_1_half by lia; apply Z.div_pos; lia).
    assert (H2 : 0 <= shr_m (SpecFloat.iter_pos shr_1 p (shr_1 mrs)))
      by (rewrite IH by exact H1; apply Z.div_pos; lia).
    rewrite (IH _ H2), (IH _ H1), shr_1_half by exact Hm.
    rewrite !Z.div_div by lia. f_equal.
    replace (Z.pos p~1) with (1 + Z.pos p + Z.pos p) by lia.
    rewrite !Z.pow_add_r by lia. change (2 ^ 1) with 2. ring.
  - assert (Hpow : 0 < 2 ^ Z.pos p) by (apply Z.pow_pos_nonneg; lia).
    assert (H2 : 0 <= shr_m (SpecFloat.iter_pos shr_1 p mrs))
      by (rewrite IH by exact Hm; apply Z.div_pos; lia).
    rewrite (IH _ H2), (IH _ Hm).
    rewrite !Z.div_div by lia. f_equal.
    replace (Z.pos p~0) with (Z.pos p + Z.pos p) by lia.
    rewrite !Z.pow_add_r by lia. ring.
  - rewrite shr_1_half by exact Hm. reflexivity.
Qed.

(** [shr_fexp] keeps a positive mantissa positive when the exponent is not
    below the smallest one. *)
Lemma shr_fexp_pos (m e : Z) (l : location) (mrs : shr_record) (e1 : Z) :
  0 < m -> -1074 <= e ->
  shr_fexp prec emax m e l = (mrs, e1) ->
  0 < shr_m mrs /\ -1074 <= e1.
Proof.
  intros Hm He. unfold shr_fexp, shr.
  destruct (fexp prec emax (Zdigits2 m + e) - e) as [|p|p] eqn:Hn;
    intros [= <- <-]; rewrite ?shr_record_of_loc_m; try lia.
  unfold fexp, emin in Hn. change prec with 53 in Hn.
  change emax with 1024 in Hn.
  split; [|lia].
  rewrite shr_m_iter by (rewrite shr_record_of_loc_m; lia).
  rewrite shr_record_of_loc_m.
  destruct m as [|q|q]; try lia.
  pose proof (Zdigits2_ge q) as Hge.
  apply Z.div_str_pos. split; [apply Z.pow_pos_nonneg; lia|].
  etransitivity; [|exact Hge].
  apply Z.pow_le_mono_r; lia.
Qed.

(** Rounding a positive mantissa gives a finite number or an infinity of the
    sign [s]. *)
Lemma binary_round_aux_pos (s : bool) (m e : Z) (l : location) :
  0 < m -> -1074 <= e ->
  match binary_round_aux prec emax s m e l with
  | S754_finite s' _ _ | S754_infinity s' => s' = s
  | _ => False
  end.
Proof.
  intros Hm He. unfold binary_round_aux.
  destruct (shr_fexp prec emax m e l) as [mrs' e1] eqn:H1.
  apply shr_fexp_pos in H1 as [Hm1 He1]; [|lia|lia].
  pose proof (round_nearest_even_bound (shr_m mrs') (loc_of_shr_record mrs'))
    as Hr.
  destruct (shr_fexp prec emax
              (round_nearest_even (shr_m mrs') (loc_of_shr_record mrs'))
              e1 loc_Exact) as [mrs'' e2] eqn:H2.
  apply shr_fexp_pos in H2 as [Hm2 He2]; [|lia|lia].
  destruct (shr_m mrs'') as [|p|p]; try lia.
  destruct (e2 <=? emax - prec); reflexivity.
Qed.

(** Rounding a mantissa that is not negative never gives [nan]. *)
Lemma binary_round_aux_not_nan (s : bool) (m e : Z) (l : location) :
  0 <= m -> binary_round_aux prec emax s m e l <> S754_nan.
Proof.
  intros Hm. unfold binary_round_aux.
  destruct (shr_fexp prec emax m e l) as [mrs' e1] eqn:H1.
  apply shr_fexp_bound in H1 as [Hm1 _]; [|lia].
  pose proof (round_nearest_even_bound (shr_m mrs') (loc_of_shr_record mrs'))
    as Hr.
  destruct (shr_fexp prec emax
              (round_nearest_even (shr_m mrs') (loc_of_shr_record mrs'))
              e1 loc_Exact) as [mrs'' e2] eqn:H2.
  apply shr_fexp_bound in H2 as [Hm2 _]; [|lia].
  destruct (shr_m mrs'') as [|p|p]; try lia; try discriminate.
  destruct (e2 <=? emax - prec); discriminate.
Qed.

Lemma Zpos_iter_xO (p d : positive) :
  Z.pos (Pos.iter xO p d) = Z.pos p * 2 ^ Z.pos d.
Proof.
  induction d as [|d IH] using Pos.peano_ind.
  - simpl. lia.
  - rewrite Pos.iter_succ, Pos2Z.inj_xO, IH, Pos2Z.inj_succ.
    rewrite Z.pow_succ_r by lia. lia.
Qed.

(** The quotient of two finite doubles that are numbers is a number. *)
Lemma SFdiv_finite_not_nan (sx sy : bool) (mx my : positive) (ex ey : Z) :
  SF64div (S754_finite sx mx ex) (S754_finite sy my ey) <> S754_nan.
Proof.
  unfold SF64div, SFdiv, SFdiv_core_binary.
  set (s := ex - ey - _).
  set (m' := match s with Z.pos _ => Z.shiftl (Z.pos mx) s
                        | 0 => Z.pos mx | Z.neg _ => 0 end).
  assert (Hm' : 0 <= m').
  { subst m'. destruct s; try lia. apply Z.shiftl_nonneg. lia. }
  pose proof (Z_div_mod m' (Z.pos my)) as Hdiv.
  destruct (Z.div_eucl m' (Z.pos my)) as [q r].
  destruct Hdiv as [Hdiv Hr]; [lia|].
  apply binary_round_aux_not_nan. nia.
Qed.

(** ** The Newton loop *)

Section NewtonLoop.

Import GaussLegendre.

Variables (n : Z) (x0 : float).

Lemma newton_loop_step (fuel : nat) (x : float) (dobreak : bool) (j : Z) :
  newton_loop (S fuel) n x dobreak j =
  let r := newton_pass n x in
  if dobreak then Done r.1.1 r.2
  else if j + 1 <? 100
       then newton_loop fuel n r.1.1 (PrimFloat.leb (abs r.1.2) eps) (j + 1)
       else Failed "convergence problem".
Proof.
  simpl. destruct (newton_pass n x) as [[x1 dx] dpdx]; simpl.
  destruct dobreak; [reflexivity|].
  destruct (PrimFloat.leb (abs dx) eps); reflexivity.
Qed.

Lemma delta_S (p : nat) :
  delta (S p) n x0 = (newton_pass n (iterate p n x0)).1.2.
Proof. unfold delta. simpl. rewrite Nat.sub_0_r. reflexivity. Qed.

Lemma slope_S (p : nat) :
  slope (S p) n x0 = (newton_pass n (iterate p n x0)).2.
Proof. unfold slope. simpl. rewrite Nat.sub_0_r. reflexivity. Qed.

(** Passes on which the criterion is not met are run through. *)
Lemma newton_loop_skip (d fuel p : nat) :
  (forall q, (p < q <= p + d)%nat -> converged q n x0 = false) ->
  (p + d < 100)%nat ->
  newton_loop (d + fuel) n (iterate p n x0) false (Z.of_nat p) =
  newton_loop fuel n (iterate (p + d) n x0) false (Z.of_nat (p + d)).
Proof.
  revert p. induction d as [|d IH]; intros p Hq Hlt.
  - rewrite Nat.add_0_r. reflexivity.
  - change (S d + fuel)%nat with (S (d + fuel)).
    rewrite newton_loop_step. cbv zeta.
    assert (Hc : converged (S p) n x0 = false) by (apply Hq; lia).
    unfold converged in Hc. rewrite delta_S in Hc. rewrite Hc.
    replace (Z.of_nat p + 1 <? 100) with true
      by (symmetry; apply Z.ltb_lt; lia).
    replace (Z.of_nat p + 1) with (Z.of_nat (S p)) by lia.
    change ((newton_pass n (iterate p n x0)).1.1) with (iterate (S p) n x0).
    rewrite IH by (try intros q Hr; try apply Hq; lia).
    replace (S p + d)%nat with (p + S d)%nat by lia. reflexivity.
Qed.

(** The loop leaves on the pass after the first one that met the criterion. *)
Lemma newton_node_done (k : nat) :
  first_converged k n x0 -> (k <= 99)%nat ->
  newton_node n x0 = Done (iterate (S k) n x0) (slope (S k) n x0).
Proof.
  intros (Hk1 & Hc & Hbefore) Hk. unfold newton_node.
  replace 100%nat with ((k - 1) + (S (S (98 - (k - 1)))))%nat by lia.
  change 0 with (Z.of_nat 0). change x0 with (iterate 0 n x0) at 1.
  rewrite newton_loop_skip by (try intros q Hq; try apply Hbefore; lia).
  rewrite newton_loop_step. cbv zeta.
  replace (0 + (k - 1))%nat with (k - 1)%nat by lia.
  assert (Hk' : S (k - 1) = k) by lia.
  unfold converged in Hc. rewrite <- Hk', delta_S in Hc. rewrite Hc.
  replace (Z.of_nat (k - 1) + 1 <? 100) with true
    by (symmetry; apply Z.ltb_lt; lia).
  rewrite newton_loop_step. cbv zeta.
  change ((newton_pass n (iterate (k - 1) n x0)).1.1)
    with (iterate (S (k - 1)) n x0).
  rewrite Hk'. rewrite slope_S. reflexivity.
Qed.

(** Without the criterion met on passes 1 to 99, pass 100 ends in the
    failed assertion. *)
Lemma newton_node_failed :
  (forall q, (1 <= q <= 99)%nat -> converged q n x0 = false) ->
  newton_node n x0 = Failed "convergence problem".
Proof.
  intros Hnone. unfold newton_node.
  change 100%nat with (99 + 1)%nat.
  change 0 with (Z.of_nat 0). change x0 with (iterate 0 n x0) at 1.
  rewrite newton_loop_skip by (try intros q Hq; try apply Hnone; lia).
  rewrite newton_loop_step. cbv zeta. reflexivity.
Qed.

(** Either some pass up to [b] is the first to meet the criterion, or none
    of them meets it. *)
Lemma first_converged_upto (b : nat) :
  (exists k, first_converged k n x0 /\ (k <= b)%nat) \/
  (forall q, (1 <= q <= b)%nat -> converged q n x0 = false).
Proof.
  induction b as [|b [(k & Hk & Hle)|Hnone]].
  - right. intros q Hq. lia.
  - left. exists k. split; [exact Hk|lia].
  - destruct (converged (S b) n x0) eqn:Hc.
    + left. exists (S b). split; [|lia].
      split; [lia|]. split; [exact Hc|]. intros q Hq. apply Hnone. lia.
    + right. intros q Hq. destruct (decide (q = S b)) as [->|Hne];
        [exact Hc|apply Hnone; lia].
Qed.

Lemma first_converged_unique (k k' : nat) :
  first_converged k n x0 -> first_converged k' n x0 -> k = k'.
Proof.
  intros (H1 & Hc & Hb) (H1' & Hc' & Hb').
  destruct (Nat.lt_trichotomy k k') as [Hlt|[Heq|Hgt]]; [|exact Heq|].
  - rewrite Hb' in Hc by lia. discriminate.
  - rewrite Hb in Hc' by lia. discriminate.
Qed.

End NewtonLoop.

Lemma first_convergedb_true (p : nat) (n : Z) (x0 : float) :
  GaussLegendre.first_convergedb p n x0 = true ->
  GaussLegendre.first_converged p n x0.
Proof.
  unfold GaussLegendre.first_convergedb, GaussLegendre.first_converged.
  rewrite !andb_true_iff, forallb_forall. intros [[Hp Hc] Hall].
  split; [apply Nat.leb_le, Hp|]. split; [exact Hc|].
  intros q Hq. apply negb_true_iff, Hall, in_seq. lia.
Qed.

(** C1.  Every pass of the [while(1)] loop of [gauss_legendre_tbl] applies
    the Newton update [x1 = x0 - P0/dpdx], with [P0] the value of the
    recurrence at [x0] and [dpdx = (x0*P0 - P_1)*n/(x0*x0-1)], whatever
    [dobreak] is: the pass either returns [x1] or goes on with [x1].  So the
    value after [p+1] passes is the update of the value after [p] passes,
    and [dx] and [dpdx] of a pass are the step and the derivative of that
    update.  The loop returns a value exactly when some pass [k <= 99] is the
    first on which [fabs(dx) <= eps] held, and then it returns on pass
    [k+1]: the published [x0] is the result of [k+1] updates and [dpdx] is
    the derivative computed on that last pass.  So exactly one more update
    than the passes needed to observe convergence is applied. *)
Theorem newton_exit_one_pass_after_convergence (n : Z) (x0 x dpdx : float) :
  (forall (fuel : nat) (xj : float) (dobreak : bool) (j : Z),
     let P := GaussLegendre.legendre (Z.to_nat (n - 1)) 2 xj 1 xj in
     let d := ((xj * P.2 - P.1) * Z2F n / (xj * xj - 1))%float in
     let x1 := (xj - P.2 / d)%float in
     GaussLegendre.newton_loop (S fuel) n xj dobreak j =
     if dobreak then GaussLegendre.Done x1 d
     else if j + 1 <? 100
          then GaussLegendre.newton_loop fuel n x1
                 (abs (xj - x1) <=? GaussLegendre.eps)%float (j + 1)
          else GaussLegendre.Failed "convergence problem") /\
  (forall p : nat,
     let xp := GaussLegendre.iterate p n x0 in
     let P := GaussLegendre.legendre (Z.to_nat (n - 1)) 2 xp 1 xp in
     let d := ((xp * P.2 - P.1) * Z2F n / (xp * xp - 1))%float in
     let x1 := (xp - P.2 / d)%float in
     GaussLegendre.iterate (S p) n x0 = x1 /\
     GaussLegendre.delta (S p) n x0 = (xp - x1)%float /\
     GaussLegendre.slope (S p) n x0 = d) /\
  (GaussLegendre.newton_node n x0 = GaussLegendre.Done x dpdx <->
   exists k : nat,
     GaussLegendre.first_converged k n x0 /\ (k <= 99)%nat /\
     x = GaussLegendre.iterate (S k) n x0 /\
     dpdx = GaussLegendre.slope (S k) n x0).
Proof.
  split; [|split].
  - intros fuel xj dobreak j. cbv zeta. rewrite newton_loop_step. cbv zeta.
    unfold GaussLegendre.newton_pass.
    destruct (GaussLegendre.legendre (Z.to_nat (n - 1)) 2 xj 1 xj) as [P_1 P0].
    reflexivity.
  - intros p. cbv zeta. rewrite delta_S, slope_S.
    cbn [GaussLegendre.iterate]. unfold GaussLegendre.newton_pass.
    destruct (GaussLegendre.legendre (Z.to_nat (n - 1)) 2
                (GaussLegendre.iterate p n x0) 1 (GaussLegendre.iterate p n x0))
      as [P_1 P0].
    split; [reflexivity|]. split; reflexivity.
  - split.
    + intros Hdone.
      destruct (first_converged_upto n x0 99) as [(k & Hk & Hle)|Hnone].
      * rewrite (newton_node_done n x0 k Hk Hle) in Hdone.
        injection Hdone as <- <-. exists k.
        split; [exact Hk|]. split; [exact Hle|]. split; reflexivity.
      * rewrite (newton_node_failed n x0 Hnone) in Hdone. discriminate.
    + intros (k & Hk & Hle & -> & ->). apply newton_node_done; assumption.
Qed.

(** The middle node of order 3, seeded with [cos(pi/2)*t0]: the criterion
    holds on pass 1 and the loop leaves on pass 2. *)
Example newton_node_order3_middle :
  GaussLegendre.first_converged 1 3 0x1.17c508332fc5cp-54 /\
  GaussLegendre.newton_node 3 0x1.17c508332fc5cp-54 = GaussLegendre.Done 0 (-1.5).
Proof.
  split; [apply first_convergedb_true|]; vm_compute; reflexivity.
Qed.

(** The loop ends in the failed assertion exactly when no pass up to the
    99th was the first to meet the criterion: the loop would need more than
    100 passes. *)
Lemma newton_node_failed_iff (n : Z) (x0 : float) :
  GaussLegendre.newton_node n x0 = GaussLegendre.Failed "convergence problem" <->
  forall k : nat, GaussLegendre.first_converged k n x0 -> (100 < S k)%nat.
Proof.
  split.
  - intros Hfail k Hk. destruct (le_lt_dec k 99) as [Hle|Hgt]; [|lia].
    rewrite (newton_node_done n x0 k Hk Hle) in Hfail. discriminate.
  - intros Hlate.
    destruct (first_converged_upto n x0 99) as [(k & Hk & Hle)|Hnone].
    + specialize (Hlate k Hk). lia.
    + apply newton_node_failed, Hnone.
Qed.

(** The loop returns exactly when the pass after the first one that met the
    criterion is among the 100 passes. *)
Lemma newton_node_done_iff (n : Z) (x0 : float) :
  (exists v dpdx : float,
     GaussLegendre.newton_node n x0 = GaussLegendre.Done v dpdx) <->
  exists k : nat, GaussLegendre.first_converged k n x0 /\ (S k <= 100)%nat.
Proof.
  split.
  - intros (v & dpdx & Hdone).
    destruct (first_converged_upto n x0 99) as [(k & Hk & Hle)|Hnone].
    + exists k. split; [exact Hk|lia].
    + rewrite (newton_node_failed n x0 Hnone) in Hdone. discriminate.
  - intros (k & Hk & Hle). eexists _, _.
    apply (newton_node_done n x0 k Hk). lia.
Qed.

(** A criterion first met on pass 100 comes too late, the loop has no pass
    101 to return on: for order 2 and the start value [2^-95] the loop ends
    in the failed assertion.  The start value is given to the loop directly;
    the start values of order 2 that [gauss_legendre_tbl] computes are near
    [0.58]. *)
Example newton_criterion_on_pass_100 :
  GaussLegendre.first_converged 100 2 0x1p-95 /\
  GaussLegendre.newton_node 2 0x1p-95
  = GaussLegendre.Failed "convergence problem".
Proof.
  split; [apply first_convergedb_true|]; vm_compute; reflexivity.
Qed.

(** X3.  The node loop always ends within its 100 passes, with a returned
    node or in the failed assertion: the 100 units of fuel of [newton_node]
    are never used up. *)
Lemma newton_node_fuel (n : Z) (x0 : float) :
  GaussLegendre.newton_node n x0 <> GaussLegendre.OutOfFuel.
Proof.
  destruct (first_converged_upto n x0 99) as [(k & Hk & Hle)|Hnone].
  - rewrite (newton_node_done n x0 k Hk Hle). discriminate.
  - rewrite (newton_node_failed n x0 Hnone). discriminate.
Qed.

(** *** A start value that is not a number *)

Section NotANumber.

Import GaussLegendre.

Local Open Scope float_scope.

Lemma legendre_nan (cnt : nat) :
  forall (k : Z) (P_1 : float), (legendre cnt k nan P_1 nan).2 = nan.
Proof.
  induction cnt as [|cnt IH]; intros k P_1; cbn [legendre]; [reflexivity|].
  rewrite !nan_mul_l, nan_add_l. apply IH.
Qed.

Lemma newton_pass_nan (n : Z) : newton_pass n nan = (nan, nan, nan).
Proof.
  unfold newton_pass.
  pose proof (legendre_nan (Z.to_nat (n - 1)) 2 1) as HP.
  destruct (legendre (Z.to_nat (n - 1)) 2 nan 1 nan) as [P_1 P0].
  cbn [snd] in HP. subst P0.
  cbv zeta.
  repeat (rewrite nan_mul_l || rewrite nan_sub_l || rewrite nan_div_l).
  reflexivity.
Qed.

Lemma iterate_nan (p : nat) (n : Z) : iterate p n nan = nan.
Proof.
  induction p as [|p IH]; cbn [iterate]; [reflexivity|].
  rewrite IH, newton_pass_nan. reflexivity.
Qed.

Lemma converged_nan (p : nat) (n : Z) : converged p n nan = false.
Proof.
  unfold converged, delta. rewrite iterate_nan, newton_pass_nan. reflexivity.
Qed.

End NotANumber.

(** ** The table of nodes and weights *)

Section GaussLegendreTable.

Import GaussLegendre.

Context (M : libm).

Variable n : Z.

Hypothesis n_range : 1 <= n < INT_MAX.

Lemma store_length (i : Z) (v : float) (a : list float) :
  length (store i v a) = length a.
Proof. apply length_insert. Qed.

Lemma store_lookup_eq (i : Z) (v : float) (a : list float) :
  0 <= i < Z.of_nat (length a) -> store i v a !! Z.to_nat i = Some v.
Proof. intros Hi. apply list_lookup_insert_eq. lia. Qed.

Lemma store_lookup_ne (i j : Z) (v : float) (a : list float) :
  0 <= i -> 0 <= j -> i <> j -> store i v a !! Z.to_nat j = a !! Z.to_nat j.
Proof. intros Hi Hj Hne. apply list_lookup_insert_ne. lia. Qed.

(** One pass of the [i] loop keeps the pairs built so far and adds the
    pair, or the middle entry, of node [i]. *)
Lemma nodes_loop_invariant (cnt : nat) :
  forall (i : Z) (x w x' w' : list float),
    1 <= i -> 2 * (i + Z.of_nat cnt - 1) <= n + 1 ->
    length x = Z.to_nat n -> length w = Z.to_nat n ->
    mirrored_upto n (i - 1) x w -> middle_upto M n (i - 1) x ->
    nodes_loop M cnt i n x w = Returned (x', w') ->
    length x' = Z.to_nat n /\ length w' = Z.to_nat n /\
    mirrored_upto n (i - 1 + Z.of_nat cnt) x' w' /\
    middle_upto M n (i - 1 + Z.of_nat cnt) x'.
Proof using n_range.
  unfold INT_MAX in n_range.
  induction cnt as [|cnt IH]; intros i x w x' w' Hi Hm Hx Hw Hpair Hmid Hrun.
  - simpl in Hrun. injection Hrun as <- <-. rewrite Z.add_0_r. tauto.
  - simpl in Hrun.
    destruct (newton_node n (seed M n i)) as [x0 dpdx|msg|] eqn:Hnode;
      try discriminate.
    rewrite int32_small in Hrun by (simpl; lia).
    apply IH in Hrun; clear IH.
    + replace (i + 1 - 1 + Z.of_nat cnt) with (i - 1 + Z.of_nat (S cnt))
        in Hrun by lia. exact Hrun.
    + lia.
    + lia.
    + rewrite !store_length. exact Hx.
    + rewrite !store_length. exact Hw.
    + intros j Hj Hlt. destruct (decide (j = i - 1)) as [->|Hne].
      * exists x0, (2 / ((1 - x0 * x0) * dpdx * dpdx))%float.
        replace (n - 1 - (i - 1)) with (n - i) in * by lia.
        split; [|split; [|split]].
        -- rewrite store_lookup_ne by lia. apply store_lookup_eq. lia.
        -- apply store_lookup_eq. rewrite store_length. lia.
        -- apply store_lookup_eq. rewrite store_length. lia.
        -- rewrite store_lookup_ne by lia. apply store_lookup_eq. lia.
      * destruct (Hpair j) as (v & wv & H1 & H2 & H3 & H4); [lia|lia|].
        exists v, wv. rewrite !store_lookup_ne by lia. tauto.
    + intros j Hj Heq. assert (j = i - 1) as -> by lia.
      exists x0, dpdx. replace (i - 1 + 1) with i by lia.
      split; [exact Hnode|].
      replace (i - 1) with (n - i) by lia.
      apply store_lookup_eq. rewrite store_length. lia.
Qed.

Lemma node_count : Z.shiftr (int32 (n + 1)) 1 = (n + 1) / 2.
Proof using n_range.
  unfold INT_MAX in n_range. rewrite int32_small by (simpl; lia).
  rewrite Z.shiftr_div_pow2 by lia. reflexivity.
Qed.

Lemma gauss_legendre_tbl_invariant (x w x' w' : list float) :
  length x = Z.to_nat n -> length w = Z.to_nat n ->
  gauss_legendre_tbl M n x w = Returned (x', w') ->
  length x' = Z.to_nat n /\ length w' = Z.to_nat n /\
  mirrored_upto n ((n + 1) / 2) x' w' /\ middle_upto M n ((n + 1) / 2) x'.
Proof using n_range.
  intros Hx Hw Hrun. unfold gauss_legendre_tbl in Hrun. cbv zeta in Hrun.
  rewrite node_count in Hrun.
  assert (Hdiv : 2 * ((n + 1) / 2) <= n + 1 < 2 * ((n + 1) / 2) + 2).
  { pose proof (Z.div_mod (n + 1) 2). pose proof (Z.mod_pos_bound (n + 1) 2). lia. }
  apply nodes_loop_invariant in Hrun.
  - rewrite Z2Nat.id in Hrun by lia. exact Hrun.
  - lia.
  - lia.
  - exact Hx.
  - exact Hw.
  - intros j Hj. lia.
  - intros j Hj. lia.
Qed.

(** One pass of the [i] loop keeps the entries written so far and writes
    the two entries, or the middle entry, of node [i]. *)
Lemma nodes_loop_entries (cnt : nat) :
  forall (i : Z) (x w x' w' : list float),
    1 <= i -> 2 * (i + Z.of_nat cnt - 1) <= n + 1 ->
    length x = Z.to_nat n -> length w = Z.to_nat n ->
    (forall j, 0 <= j < n -> Z.min j (n - 1 - j) < i - 1 -> entry_of M n j x w) ->
    nodes_loop M cnt i n x w = Returned (x', w') ->
    forall j, 0 <= j < n -> Z.min j (n - 1 - j) < i - 1 + Z.of_nat cnt ->
    entry_of M n j x' w'.
Proof using n_range.
  unfold INT_MAX in n_range.
  induction cnt as [|cnt IH]; intros i x w x' w' Hi Hm Hx Hw Hold Hrun.
  - simpl in Hrun. injection Hrun as <- <-. rewrite Z.add_0_r. exact Hold.
  - simpl in Hrun.
    destruct (newton_node n (seed M n i)) as [x0 dpdx|msg|] eqn:Hnode;
      try discriminate.
    rewrite int32_small in Hrun by (simpl; lia).
    intros j Hj Hmin.
    refine (IH (i + 1) _ _ x' w' _ _ _ _ _ Hrun j Hj _);
      [lia|lia|rewrite !store_length; exact Hx
      |rewrite !store_length; exact Hw| |lia].
    clear j Hj Hmin. intros j Hj Hmin.
    destruct (decide (Z.min j (n - 1 - j) = i - 1)) as [Heq|Hne].
    + exists x0, dpdx. rewrite Heq. replace (i - 1 + 1) with i by lia.
      split; [exact Hnode|].
      destruct (j <? n - 1 - j) eqn:E.
      * assert (j = i - 1) as -> by lia. split.
        -- rewrite store_lookup_ne by lia. apply store_lookup_eq. lia.
        -- apply store_lookup_eq. rewrite store_length. lia.
      * assert (j = n - i) as -> by lia. split.
        -- apply store_lookup_eq. rewrite store_length. lia.
        -- destruct (decide (n - i = i - 1)) as [Hmid|Hnm].
           ++ rewrite Hmid. apply store_lookup_eq. rewrite store_length. lia.
           ++ rewrite store_lookup_ne by lia. apply store_lookup_eq. lia.
    + destruct (Hold j Hj) as (v & d & H1 & H2 & H3); [lia|].
      exists v, d. split; [exact H1|].
      assert (j <> i - 1 /\ j <> n - i) as [? ?] by lia.
      rewrite !store_lookup_ne by lia. split; assumption.
Qed.

Lemma gauss_legendre_tbl_entries_aux (x w x' w' : list float) :
  length x = Z.to_nat n -> length w = Z.to_nat n ->
  gauss_legendre_tbl M n x w = Returned (x', w') ->
  forall j, 0 <= j < n -> entry_of M n j x' w'.
Proof using n_range.
  intros Hx Hw Hrun j Hj. unfold gauss_legendre_tbl in Hrun. cbv zeta in Hrun.
  rewrite node_count in Hrun.
  assert (Hdiv : 2 * ((n + 1) / 2) <= n + 1 < 2 * ((n + 1) / 2) + 2).
  { pose proof (Z.div_mod (n + 1) 2). pose proof (Z.mod_pos_bound (n + 1) 2). lia. }
  refine (nodes_loop_entries (Z.to_nat ((n + 1) / 2)) 1 x w x' w'
            _ _ Hx Hw _ Hrun j Hj _);
    rewrite ?Z2Nat.id by lia; lia.
Qed.

(** The node loop either runs through, every node's Newton loop having
    returned, or stops at the first node whose Newton loop fails. *)
Lemma nodes_loop_outcome (cnt : nat) :
  forall (i : Z) (x w : list float),
    1 <= i -> i + Z.of_nat cnt <= INT_MAX ->
    match nodes_loop M cnt i n x w with
    | Returned _ =>
        forall k, i <= k < i + Z.of_nat cnt ->
        exists v dpdx, newton_node n (seed M n k) = Done v dpdx
    | Aborted msg =>
        msg = "convergence problem"%string /\
        exists k, i <= k < i + Z.of_nat cnt /\
          newton_node n (seed M n k) = Failed "convergence problem"
    end.
Proof.
  unfold INT_MAX.
  induction cnt as [|cnt IH]; intros i x w Hi Hle.
  - cbn [nodes_loop]. intros k Hk. lia.
  - cbn [nodes_loop].
    destruct (first_converged_upto n (seed M n i) 99) as [(p & Hp & Hp99)|Hnone].
    + rewrite (newton_node_done n _ p Hp Hp99).
      rewrite (int32_small (i + 1)) by (change (2 ^ 31) with 2147483648; lia).
      match goal with |- context [nodes_loop M cnt (i + 1) n ?x' ?w'] =>
        specialize (IH (i + 1) x' w' ltac:(lia) ltac:(lia));
        destruct (nodes_loop M cnt (i + 1) n x' w') as [[x'' w'']|msg] end.
      * intros k Hk. destruct (decide (k = i)) as [->|Hne].
        -- rewrite (newton_node_done n _ p Hp Hp99). eauto.
        -- apply IH. lia.
      * destruct IH as (-> & k & Hk & Hfail). split; [reflexivity|].
        exists k. split; [lia|exact Hfail].
    + rewrite (newton_node_failed n _ Hnone). split; [reflexivity|].
      exists i. split; [lia|]. apply newton_node_failed, Hnone.
Qed.

End GaussLegendreTable.

(** *** The order of the nodes and the sign of the weights *)

Section NodeOrder.

Import GaussLegendre.

Context (M : libm) (n : Z) (x' w' : list float).

Hypothesis n_range : 1 <= n < INT_MAX.
Hypothesis entries : forall j, 0 <= j < n -> entry_of M n j x' w'.






End NodeOrder.




(** For every C library whose [cos] is correctly rounded at the start
    value of the middle node of order 59, that node is published as
    [-2^-154], not as 0. *)
Lemma gauss_legendre_order_59_middle (M : libm) (x w x' w' : list float) :
  m_cos M 0x1.921fb54442d17p+0 = 0x1.469898cc51702p-52%float ->
  length x = 59%nat -> length w = 59%nat ->
  GaussLegendre.gauss_legendre_tbl M 59 x w = Returned (x', w') ->
  x' !! 29%nat = Some (-0x1p-154)%float.
Proof.
  intros Hcos Hx Hw Hrun.
  destruct (gauss_legendre_tbl_invariant M 59) with (x := x) (w := w)
    (x' := x') (w' := w') as (_ & _ & _ & Hmid);
    [unfold INT_MAX; lia|exact Hx|exact Hw|exact Hrun|].
  change ((59 + 1) / 2) with 30 in Hmid.
  destruct (Hmid 29) as (v & dpdx & Hnode & Hv); [lia|lia|].
  unfold GaussLegendre.seed in Hnode.
  change (pi * Z2F (int32 (Z.shiftl (29 + 1) 2 - 1)) * GaussLegendre.t1 59)%float
    with 0x1.921fb54442d17p+0%float in Hnode.
  rewrite Hcos in Hnode. vm_compute in Hnode.
  change (Z.to_nat 29) with 29%nat in Hv. rewrite Hv. f_equal.
  apply (f_equal (fun r => match r with
                           | GaussLegendre.Done x0 _ => x0
                           | _ => 0%float
                           end)) in Hnode.
  symmetry. exact Hnode.
Qed.

(** [gauss_legendre_order_59_middle] applied to the table of correctly
    rounded cosines. *)
Lemma gauss_legendre_order_59_middle_ref :
  exists x' w' : list float,
    GaussLegendre.gauss_legendre_tbl libm_ref 59
      (replicate 59 0%float) (replicate 59 0%float) = Returned (x', w') /\
    x' !! 29%nat = Some (-0x1p-154)%float.
Proof.
  destruct (GaussLegendre.gauss_legendre_tbl libm_ref 59
              (replicate 59 0%float) (replicate 59 0%float))
    as [[x' w']|msg] eqn:Hrun; [|vm_compute in Hrun; discriminate].
  exists x', w'. split; [reflexivity|].
  apply (gauss_legendre_order_59_middle libm_ref
           (replicate 59 0%float) (replicate 59 0%float) x' w');
    [reflexivity|reflexivity|reflexivity|exact Hrun].
Defined.

Section TableOutcome.

Import GaussLegendre.

Lemma node_count_0 (n : Z) :
  0 <= n < INT_MAX -> Z.shiftr (int32 (n + 1)) 1 = (n + 1) / 2.
Proof.
  unfold INT_MAX. intros Hn. rewrite int32_small by (simpl; lia).
  rewrite Z.shiftr_div_pow2 by lia. reflexivity.
Qed.

(** The outcome of the table: all nodes converged by pass 99, or the
    failed assertion for some node that did not. *)
Lemma gauss_legendre_tbl_outcome (M : libm) (n : Z) (x w : list float) :
  0 <= n < INT_MAX ->
  match gauss_legendre_tbl M n x w with
  | Returned _ =>
      forall i, 1 <= i <= (n + 1) / 2 ->
      exists k, (k <= 99)%nat /\ first_converged k n (seed M n i)
  | Aborted msg =>
      msg = "convergence problem"%string /\
      exists i, 1 <= i <= (n + 1) / 2 /\
        forall q, (1 <= q <= 99)%nat -> converged q n (seed M n i) = false
  end.
Proof.
  intros Hn. unfold gauss_legendre_tbl. cbv zeta.
  rewrite node_count_0 by exact Hn.
  pose proof (half_bounds n) as Hdiv.
  pose proof (nodes_loop_outcome M n (Z.to_nat ((n + 1) / 2)) 1 x w) as Hout.
  rewrite Z2Nat.id in Hout by lia.
  specialize (Hout ltac:(lia) ltac:(unfold INT_MAX in *; lia)).
  destruct (nodes_loop M (Z.to_nat ((n + 1) / 2)) 1 n x w) as [[x' w']|msg].
  - intros i Hi. destruct (Hout i ltac:(lia)) as (v & d & Hdone).
    destruct (first_converged_upto n (seed M n i) 99) as [(k & Hk & Hle)|Hnone].
    + exists k. split; assumption.
    + rewrite (newton_node_failed n _ Hnone) in Hdone. discriminate.
  - destruct Hout as (-> & i & Hi & Hfail). split; [reflexivity|].
    exists i. split; [lia|].
    destruct (first_converged_upto n (seed M n i) 99) as [(k & Hk & Hle)|Hnone].
    + rewrite (newton_node_done n _ k Hk Hle) in Hfail. discriminate.
    + exact Hnone.
Qed.

(** X2. When [gauss_legendre_tbl] returns for an order [1 <= n < INT_MAX],
    every entry of the table is what the Newton loop returned for the node
    the entry belongs to, node [min j (n-1-j) + 1]: [x[j]] is the negated
    node for [j < n-1-j] and the node itself otherwise, and [w[j]] is
    [2/((1-x0*x0)*dpdx*dpdx)]. Nothing of what the arrays held before is
    left. *)
Theorem gauss_legendre_tbl_entries (M : libm) (n : Z)
    (x w x' w' : list float) :
  1 <= n < INT_MAX ->
  length x = Z.to_nat n -> length w = Z.to_nat n ->
  gauss_legendre_tbl M n x w = Returned (x', w') ->
  forall j : Z, 0 <= j < n ->
  exists v dpdx : float,
    newton_node n (seed M n (Z.min j (n - 1 - j) + 1)) = Done v dpdx /\
    x' !! Z.to_nat j = Some (if j <? n - 1 - j then (- v)%float else v) /\
    w' !! Z.to_nat j = Some (2 / ((1 - v * v) * dpdx * dpdx))%float.
Proof.
  intros Hn Hx Hw Hrun j Hj.
  exact (gauss_legendre_tbl_entries_aux M n Hn x w x' w' Hx Hw Hrun j Hj).
Qed.

(** X2 at order 59: the last entry. *)
Lemma gauss_legendre_tbl_entries_59 :
  1 <= 59 < INT_MAX /\
  exists x' w' : list float,
    gauss_legendre_tbl libm_ref 59
      (replicate 59 0%float) (replicate 59 0%float) = Returned (x', w') /\
    exists v dpdx : float,
      newton_node 59
        (seed libm_ref 59 (Z.min 58 (59 - 1 - 58) + 1))
      = Done v dpdx /\
      x' !! Z.to_nat 58 = Some (if 58 <? 59 - 1 - 58 then (- v)%float else v) /\
      w' !! Z.to_nat 58 = Some (2 / ((1 - v * v) * dpdx * dpdx))%float.
Proof.
  split; [unfold INT_MAX; lia|].
  destruct (gauss_legendre_tbl libm_ref 59
              (replicate 59 0%float) (replicate 59 0%float))
    as [[x' w']|msg] eqn:Hrun; [|vm_compute in Hrun; discriminate].
  exists x', w'. split; [reflexivity|].
  apply (gauss_legendre_tbl_entries libm_ref 59
           (replicate 59 0%float) (replicate 59 0%float) x' w');
    [unfold INT_MAX; lia|reflexivity|reflexivity|exact Hrun|lia].
Defined.

End TableOutcome.

(** ** The pass budget of the Newton loop *)

Section ConvergenceError.

Import GaussLegendre.

(** C2.  For every order [1 <= n <= INT_MAX] and every node index
    [1 <= i <= m], [m = (n+1)>>1]: the Newton loop of node [i] ends in the
    failed assertion ["convergence problem"] when [fabs(dx) <= eps] held on
    none of its 100 passes.  The loop returns on the pass after the first
    one [k] that met the criterion, so it needs [k+1] passes: it fails
    exactly when that is more than 100, and returns exactly when [k+1] is
    within the 100 passes.  [gauss_legendre_tbl] stops in the assertion
    exactly when some node needs more than 100 passes, returns exactly when
    every node is done within 100 passes, and stops with no other message. *)
Theorem convergence_error_iff_budget_exceeded (M : libm) (n : Z)
    (x w : list float) :
  1 <= n <= INT_MAX ->
  let m := Z.shiftr (int32 (n + 1)) 1 in
  (forall i : Z, 1 <= i <= m ->
     ((forall q : nat, (1 <= q <= 100)%nat ->
         converged q n (seed M n i) = false) ->
      newton_node n (seed M n i) = Failed "convergence problem") /\
     (newton_node n (seed M n i) = Failed "convergence problem" <->
      forall k : nat, first_converged k n (seed M n i) -> (100 < S k)%nat) /\
     ((exists v dpdx : float, newton_node n (seed M n i) = Done v dpdx) <->
      exists k : nat, first_converged k n (seed M n i) /\ (S k <= 100)%nat)) /\
  (gauss_legendre_tbl M n x w = Aborted "convergence problem" <->
   exists i : Z, 1 <= i <= m /\
     forall k : nat, first_converged k n (seed M n i) -> (100 < S k)%nat) /\
  ((exists r, gauss_legendre_tbl M n x w = Returned r) <->
   forall i : Z, 1 <= i <= m ->
     exists k : nat, first_converged k n (seed M n i) /\ (S k <= 100)%nat) /\
  (forall msg, gauss_legendre_tbl M n x w = Aborted msg ->
     msg = "convergence problem"%string).
Proof.
  intros _ m.
  assert (Hm : m < 2 ^ 30).
  { unfold m. pose proof (int32_range (n + 1)) as Hr.
    rewrite Z.shiftr_div_pow2 by lia. change (2 ^ 1) with 2.
    change (2 ^ 31) with 2147483648 in Hr. change (2 ^ 30) with 1073741824.
    pose proof (Z.div_mod (int32 (n + 1)) 2).
    pose proof (Z.mod_pos_bound (int32 (n + 1)) 2).
    lia. }
  change (2 ^ 30) with 1073741824 in Hm.
  pose proof (nodes_loop_outcome M n (Z.to_nat m) 1 x w ltac:(lia)
                ltac:(unfold INT_MAX; lia)) as Hout.
  change (nodes_loop M (Z.to_nat m) 1 n x w)
    with (gauss_legendre_tbl M n x w) in Hout.
  split; [|split; [|split]].
  - intros i Hi. split; [|split].
    + intros Hnone. apply newton_node_failed. intros q Hq. apply Hnone. lia.
    + apply newton_node_failed_iff.
    + apply newton_node_done_iff.
  - destruct (gauss_legendre_tbl M n x w) as [[x' w']|msg].
    + split; [discriminate|]. intros (i & Hi & Hlate).
      destruct (Hout i ltac:(lia)) as (v & d & Hdone).
      rewrite (proj2 (newton_node_failed_iff n _) Hlate) in Hdone.
      discriminate.
    + destruct Hout as (-> & i & Hi & Hfail). split; [|reflexivity].
      intros _. exists i. split; [lia|]. apply newton_node_failed_iff, Hfail.
  - destruct (gauss_legendre_tbl M n x w) as [[x' w']|msg].
    + split; [|eauto]. intros _ i Hi. apply newton_node_done_iff, Hout. lia.
    + destruct Hout as (-> & i & Hi & Hfail).
      split; [intros [r Hr]; discriminate|].
      intros Hall. destruct (Hall i ltac:(lia)) as (k & Hk & Hle).
      pose proof (proj1 (newton_node_failed_iff n _) Hfail k Hk). lia.
  - intros msg Hmsg. rewrite Hmsg in Hout. apply Hout.
Qed.

(** C2 at order 59: the table is returned, so each of the 30 nodes is done
    within the 100 passes. *)
Lemma convergence_error_order_59 :
  1 <= 59 <= INT_MAX /\
  (exists r, gauss_legendre_tbl libm_ref 59
               (replicate 59 0%float) (replicate 59 0%float) = Returned r) /\
  forall i : Z, 1 <= i <= 30 ->
    exists k : nat,
      first_converged k 59 (seed libm_ref 59 i) /\ (S k <= 100)%nat.
Proof.
  assert (Hn : 1 <= 59 <= INT_MAX) by (unfold INT_MAX; lia).
  split; [exact Hn|].
  assert (Hret : exists r, gauss_legendre_tbl libm_ref 59
            (replicate 59 0%float) (replicate 59 0%float) = Returned r)
    by (eexists; vm_compute; reflexivity).
  split; [exact Hret|].
  destruct (convergence_error_iff_budget_exceeded libm_ref 59
              (replicate 59 0%float) (replicate 59 0%float) Hn)
    as (_ & _ & Hiff & _).
  apply Hiff, Hret.
Defined.

End ConvergenceError.

(** ** The Gauss-Legendre grid *)

Section GaussLegendreGrid.

Import GaussLegendre.

(** With a ring count that is not negative the storage is there and the
    builder is the table followed by the ring loop. *)
Lemma gauss_geom_info_nonneg (M : libm) (uninit : float)
    (n nphi stride_lon stride_lat : Z) :
  0 <= n ->
  sharp_make_gauss_geom_info M uninit n nphi stride_lon stride_lat =
  match gauss_legendre_tbl M n (replicate (Z.to_nat n) uninit)
          (replicate (Z.to_nat n) uninit) with
  | Aborted msg => Aborted msg
  | Returned (theta, weight) =>
      Returned (GeomArgs n
        (tabulate n (fun m =>
           Ring (m_acos M (- read uninit theta m)) nphi 0
                (int64 (m * stride_lat)) stride_lon
                (read uninit weight m * (2 * pi / Z2F nphi))%float)))
  end.
Proof.
  intros Hn. unfold sharp_make_gauss_geom_info.
  rewrite RALLOC_nonneg by exact Hn. reflexivity.
Qed.

(** The builder returns for no negative ring count. *)
Lemma gauss_geom_info_Returned (M : libm) (uninit : float)
    (n nphi stride_lon stride_lat : Z) (g : geom_args) :
  sharp_make_gauss_geom_info M uninit n nphi stride_lon stride_lat = Returned g ->
  0 <= n.
Proof.
  intros Hg. destruct (Z.lt_ge_cases n 0) as [Hneg|Hpos]; [|exact Hpos].
  unfold sharp_make_gauss_geom_info in Hg.
  rewrite RALLOC_negative in Hg by exact Hneg. discriminate.
Qed.

Lemma gauss_geom_info_length (M : libm) (uninit : float)
    (n nphi stride_lon stride_lat : Z) (g : geom_args) :
  sharp_make_gauss_geom_info M uninit n nphi stride_lon stride_lat = Returned g ->
  length (rings g) = Z.to_nat n.
Proof.
  intros Hg. pose proof (gauss_geom_info_Returned _ _ _ _ _ _ _ Hg) as Hn.
  rewrite gauss_geom_info_nonneg in Hg by exact Hn.
  destruct (gauss_legendre_tbl M n _ _) as [[x' w']|msg];
    [|discriminate].
  injection Hg as <-. apply length_tabulate.
Qed.

(** X5. For [0 <= nrings < INT_MAX] the only way
    [sharp_make_gauss_geom_info] fails is the assertion of the Newton
    loop: it stops with [convergence problem] exactly when for one of the
    first [(nrings+1)/2] nodes the criterion is met on none of the passes
    1 to 99, and hands a geometry to [sharp_make_geom_info] exactly when
    every node met it on some pass up to 99. *)
Theorem gauss_geom_info_outcome (M : libm) (uninit : float)
    (nrings nphi stride_lon stride_lat : Z) :
  0 <= nrings < INT_MAX ->
  match sharp_make_gauss_geom_info M uninit nrings nphi stride_lon stride_lat with
  | Returned g =>
      forall i, 1 <= i <= (nrings + 1) / 2 ->
      exists k, (k <= 99)%nat /\ first_converged k nrings (seed M nrings i)
  | Aborted msg =>
      msg = "convergence problem"%string /\
      exists i, 1 <= i <= (nrings + 1) / 2 /\
        forall q, (1 <= q <= 99)%nat ->
        converged q nrings (seed M nrings i) = false
  end.
Proof.
  intros Hn. rewrite gauss_geom_info_nonneg by lia.
  pose proof (gauss_legendre_tbl_outcome M nrings
                (replicate (Z.to_nat nrings) uninit)
                (replicate (Z.to_nat nrings) uninit) Hn) as Hout.
  destruct (gauss_legendre_tbl M nrings _ _) as [[x' w']|msg]; exact Hout.
Qed.

(** X5 at 59 rings. *)
Lemma gauss_geom_info_outcome_59 :
  0 <= 59 < INT_MAX /\
  match sharp_make_gauss_geom_info libm_ref 0 59 8 1 8 with
  | Returned g =>
      forall i, 1 <= i <= (59 + 1) / 2 ->
      exists k, (k <= 99)%nat /\
        first_converged k 59 (seed libm_ref 59 i)
  | Aborted msg =>
      msg = "convergence problem"%string /\
      exists i, 1 <= i <= (59 + 1) / 2 /\
        forall q, (1 <= q <= 99)%nat ->
        converged q 59 (seed libm_ref 59 i) = false
  end.
Proof.
  split; [unfold INT_MAX; lia|].
  apply (gauss_geom_info_outcome libm_ref 0 59 8 1 8). unfold INT_MAX; lia.
Defined.

(** X6. Ring [m] of the Gauss-Legendre grid: its colatitude is the arc
    cosine of the negated table entry, its weight the table weight times
    [2*pi/nphi], both from the Newton result of node [min m (n-1-m) + 1];
    its offset is [m*stride_lat] without wrap-around and its first
    longitude 0. No ring reads storage that [gauss_legendre_tbl] has not
    written. *)
Theorem gauss_geom_info_rings (M : libm) (uninit : float)
    (n nphi stride_lon stride_lat : Z) (g : geom_args) :
  1 <= n < INT_MAX -> - 2 ^ 31 <= stride_lat < 2 ^ 31 ->
  sharp_make_gauss_geom_info M uninit n nphi stride_lon stride_lat = Returned g ->
  forall m : Z, 0 <= m < n ->
  exists v dpdx : float,
    newton_node n (seed M n (Z.min m (n - 1 - m) + 1)) = Done v dpdx /\
    rings g !! Z.to_nat m =
    Some (Ring (m_acos M (- (if (m <? n - 1 - m)%Z then - v else v))%float)
               nphi 0 (m * stride_lat) stride_lon
               (2 / ((1 - v * v) * dpdx * dpdx) * (2 * pi / Z2F nphi))%float).
Proof.
  intros Hn Hs Hg m Hm. pose proof (gauss_geom_info_Returned _ _ _ _ _ _ _ Hg) as Hnonneg.
  rewrite gauss_geom_info_nonneg in Hg by exact Hnonneg.
  destruct (gauss_legendre_tbl M n (replicate (Z.to_nat n) uninit) (replicate (Z.to_nat n) uninit))
    as [[x' w']|msg] eqn:Hrun; [|discriminate].
  injection Hg as <-. cbn [rings].
  destruct (gauss_legendre_tbl_entries_aux M n Hn
              (replicate (Z.to_nat n) uninit) (replicate (Z.to_nat n) uninit) x' w') with (j := m)
    as (v & dpdx & Hnode & Hx & Hw);
    [apply length_replicate|apply length_replicate|exact Hrun|exact Hm|].
  exists v, dpdx. split; [exact Hnode|].
  apply lookup_tabulate. rewrite Z2Nat.id by lia. split; [|lia].
  rewrite (read_lookup uninit _ x' m ltac:(lia) Hx).
  rewrite (read_lookup uninit _ w' m ltac:(lia) Hw).
  unfold INT_MAX in Hn.
  rewrite int64_small by (change (2 ^ 63) with 9223372036854775808;
                          change (2 ^ 31) with 2147483648 in Hs; nia).
  reflexivity.
Qed.

(** X6 at 59 rings: ring 3. *)
Lemma gauss_geom_info_rings_59 :
  1 <= 59 < INT_MAX /\ - 2 ^ 31 <= 8 < 2 ^ 31 /\
  exists g : geom_args,
    sharp_make_gauss_geom_info libm_ref 0 59 8 1 8 = Returned g /\
    exists v dpdx : float,
      newton_node 59
        (seed libm_ref 59 (Z.min 3 (59 - 1 - 3) + 1))
      = Done v dpdx /\
      rings g !! Z.to_nat 3 =
      Some (Ring (m_acos libm_ref (- (if (3 <? 59 - 1 - 3)%Z then - v else v))%float)
                 8 0 (3 * 8) 1
                 (2 / ((1 - v * v) * dpdx * dpdx) * (2 * pi / Z2F 8))%float).
Proof.
  split; [unfold INT_MAX; lia|]. split; [simpl; lia|].
  destruct (sharp_make_gauss_geom_info libm_ref 0 59 8 1 8) as [g|msg] eqn:Hg;
    [|vm_compute in Hg; discriminate].
  exists g. split; [reflexivity|].
  apply (gauss_geom_info_rings libm_ref 0 59 8 1 8 g);
    [unfold INT_MAX; lia|simpl; lia|exact Hg|lia].
Defined.

(** X7. Rings [m] and [n-1-m] of the Gauss-Legendre grid have the same
    weight, and, unless [m] is the middle ring, their colatitudes are the
    arc cosines of two opposite numbers. *)
Theorem gauss_geom_info_symmetric (M : libm) (uninit : float)
    (n nphi stride_lon stride_lat : Z) (g : geom_args) (m : Z) (r r' : ring) :
  1 <= n < INT_MAX -> 0 <= m < n ->
  sharp_make_gauss_geom_info M uninit n nphi stride_lon stride_lat = Returned g ->
  rings g !! Z.to_nat m = Some r ->
  rings g !! Z.to_nat (n - 1 - m) = Some r' ->
  weight r' = weight r /\
  (m <> n - 1 - m ->
   exists c : float, theta r = m_acos M (- c) /\ theta r' = m_acos M c).
Proof.
  intros Hn Hm Hg Hr Hr'. pose proof (gauss_geom_info_Returned _ _ _ _ _ _ _ Hg) as Hnonneg.
  rewrite gauss_geom_info_nonneg in Hg by exact Hnonneg.
  destruct (gauss_legendre_tbl M n (replicate (Z.to_nat n) uninit) (replicate (Z.to_nat n) uninit))
    as [[x' w']|msg] eqn:Hrun; [|discriminate].
  injection Hg as <-. cbn [rings] in Hr, Hr'.
  apply lookup_tabulate in Hr as [-> _], Hr' as [-> _].
  rewrite !Z2Nat.id by lia. cbn [weight theta].
  pose proof (gauss_legendre_tbl_entries_aux M n Hn
                (replicate (Z.to_nat n) uninit) (replicate (Z.to_nat n) uninit) x' w'
                (length_replicate _ _) (length_replicate _ _) Hrun) as Hent.
  destruct (Hent m Hm) as (v & d & Hnode & Hx & Hw).
  destruct (Hent (n - 1 - m) ltac:(lia)) as (v' & d' & Hnode' & Hx' & Hw').
  replace (n - 1 - (n - 1 - m)) with m in * by lia.
  rewrite (Z.min_comm (n - 1 - m) m) in Hnode'. rewrite Hnode in Hnode'.
  injection Hnode' as <- <-.
  rewrite (read_lookup uninit _ x' m ltac:(lia) Hx).
  rewrite (read_lookup uninit _ w' m ltac:(lia) Hw).
  rewrite (read_lookup uninit _ x' (n - 1 - m) ltac:(lia) Hx').
  rewrite (read_lookup uninit _ w' (n - 1 - m) ltac:(lia) Hw').
  split; [reflexivity|]. intros Hne.
  destruct (m <? n - 1 - m) eqn:E1; destruct (n - 1 - m <? m) eqn:E2; try lia.
  - exists (- v)%float. split; [reflexivity|reflexivity].
  - exists v. split; [reflexivity|]. rewrite opp_involutive. reflexivity.
Qed.

(** X7 at 59 rings: rings 3 and 55. *)
Lemma gauss_geom_info_symmetric_59 :
  1 <= 59 < INT_MAX /\ 0 <= 3 < 59 /\
  exists (g : geom_args) (r r' : ring),
    sharp_make_gauss_geom_info libm_ref 0 59 8 1 8 = Returned g /\
    rings g !! Z.to_nat 3 = Some r /\
    rings g !! Z.to_nat (59 - 1 - 3) = Some r' /\
    weight r' = weight r /\
    (3 <> 59 - 1 - 3 ->
     exists c : float,
       theta r = m_acos libm_ref (- c) /\ theta r' = m_acos libm_ref c).
Proof.
  split; [unfold INT_MAX; lia|]. split; [lia|].
  destruct (sharp_make_gauss_geom_info libm_ref 0 59 8 1 8) as [g|msg] eqn:Hg;
    [|vm_compute in Hg; discriminate].
  pose proof (gauss_geom_info_length _ _ _ _ _ _ _ Hg) as Hlen.
  destruct (lookup_lt_is_Some_2 (rings g) (Z.to_nat 3)) as [r Hr];
    [rewrite Hlen; lia|].
  destruct (lookup_lt_is_Some_2 (rings g) (Z.to_nat (59 - 1 - 3))) as [r' Hr'];
    [rewrite Hlen; lia|].
  exists g, r, r'. split; [reflexivity|]. split; [exact Hr|].
  split; [exact Hr'|].
  apply (gauss_geom_info_symmetric libm_ref 0 59 8 1 8 g 3 r r');
    [unfold INT_MAX; lia|lia|exact Hg|exact Hr|exact Hr'].
Defined.

(** X8. A start value that is not a number (a [cos] of the C library that
    returns one) never meets the criterion: the Newton loop of that node
    ends in the failed assertion, and [sharp_make_gauss_geom_info] stops
    with [convergence problem] instead of publishing such a node. *)
Theorem gauss_nan_seed_aborts (M : libm) (uninit : float)
    (n nphi stride_lon stride_lat i : Z) :
  0 <= n < INT_MAX -> 1 <= i <= (n + 1) / 2 ->
  seed M n i = nan ->
  newton_node n (seed M n i) = Failed "convergence problem" /\
  sharp_make_gauss_geom_info M uninit n nphi stride_lon stride_lat
  = Aborted "convergence problem".
Proof.
  intros Hn Hi Hseed.
  assert (Hfail : newton_node n (seed M n i) = Failed "convergence problem").
  { rewrite Hseed. apply newton_node_failed. intros q _. apply converged_nan. }
  split; [exact Hfail|].
  pose proof (gauss_legendre_tbl_outcome M n
                (replicate (Z.to_nat n) uninit) (replicate (Z.to_nat n) uninit) Hn) as Hout.
  rewrite gauss_geom_info_nonneg by lia.
  destruct (gauss_legendre_tbl M n _ _) as [[x' w']|msg].
  - destruct (Hout i Hi) as (k & Hk & Hconv).
    rewrite (newton_node_done n _ k Hconv Hk) in Hfail. discriminate.
  - destruct Hout as [-> _]. reflexivity.
Qed.

(** X8 at one ring, with a [cos] that has no value at the start argument. *)
Lemma gauss_nan_seed_aborts_1 :
  0 <= 1 < INT_MAX /\ 1 <= 1 <= (1 + 1) / 2 /\
  seed libm_ref 1 1 = nan /\
  newton_node 1 (seed libm_ref 1 1)
  = Failed "convergence problem" /\
  sharp_make_gauss_geom_info libm_ref 0 1 8 1 8
  = Aborted "convergence problem".
Proof.
  split; [unfold INT_MAX; lia|].
  split; [change ((1 + 1) / 2) with 1; lia|].
  split; [reflexivity|].
  apply (gauss_nan_seed_aborts libm_ref 0 1 8 1 8 1);
    [unfold INT_MAX; lia|change ((1 + 1) / 2) with 1; lia|reflexivity].
Defined.

End GaussLegendreGrid.

(** ** The HEALPix builder *)

Section Healpix.

Context (M : libm) (uninit : float).

Variables (nside stride : Z) (w : list float).

Hypothesis nside_range : 0 < nside < 2 ^ 29.

Let npix := int64 (nside * nside * 12).

Let ncap := int64 (2 * nside * int32 (nside - 1)).

Lemma healpix_ring_nph (m : Z) :
  0 <= m < 4 * nside - 1 ->
  nph (healpix_ring M uninit nside stride w npix ncap m) =
  if hp_northring nside m <? nside then 4 * hp_northring nside m
  else 4 * nside.
Proof using nside_range.
  intros Hm. unfold healpix_ring, hp_northring. cbv zeta.
  change (2 ^ 29) with 536870912 in nside_range.
  unwrap.
  destruct (m + 1 >? 2 * nside) eqn:E1.
  - unwrap. destruct (4 * nside - (m + 1) <? nside) eqn:E2;
      destruct (negb (4 * nside - (m + 1) =? m + 1)); simpl; unwrap;
      reflexivity.
  - destruct (m + 1 <? nside) eqn:E2;
      destruct (negb (m + 1 =? m + 1)); simpl; unwrap; reflexivity.
Qed.

Lemma healpix_ring_nph_pos (m : Z) :
  0 <= m < 4 * nside - 1 ->
  0 < nph (healpix_ring M uninit nside stride w npix ncap m).
Proof using nside_range.
  intros Hm. rewrite healpix_ring_nph by exact Hm. unfold hp_northring.
  repeat case_match; lia.
Qed.

End Healpix.

Section HealpixOffsets.

Context (M : libm) (uninit : float).

Variables (nside : Z) (w : list float).

Hypothesis nside_range : 0 < nside < 2 ^ 29.

Let npix := int64 (nside * nside * 12).

Let ncap := int64 (2 * nside * int32 (nside - 1)).

(** With stride 1 the offset of ring [m] is the number of pixels before
    it, and the ring ends where the next one starts. *)
Lemma healpix_ring_ofs (m : Z) :
  0 <= m < 4 * nside - 1 ->
  ofs (healpix_ring M uninit nside 1 w npix ncap m) = hp_start nside m /\
  hp_start nside (m + 1)
  = hp_start nside m + nph (healpix_ring M uninit nside 1 w npix ncap m).
Proof using nside_range.
  intros Hm. rewrite healpix_ring_nph by assumption.
  unfold healpix_ring, hp_northring, hp_start, npix, ncap. cbv zeta.
  change (2 ^ 29) with 536870912 in nside_range.
  unwrap.
  destruct (m + 1 >? 2 * nside) eqn:E1.
  - unwrap. destruct (4 * nside - (m + 1) <? nside) eqn:E2;
      destruct (negb (4 * nside - (m + 1) =? m + 1)) eqn:E3; simpl; unwrap.
    all: repeat match goal with
         | |- context [?a <? ?b] => destruct (Z.ltb_spec a b)
         end; try lia.
    all: try (apply negb_false_iff, Z.eqb_eq in E3); try lia.
    all: split; nia.
  - destruct (m + 1 <? nside) eqn:E2;
      destruct (negb (m + 1 =? m + 1)) eqn:E3; simpl; unwrap.
    all: repeat match goal with
         | |- context [?a <? ?b] => destruct (Z.ltb_spec a b)
         end; try lia.
    all: try (apply negb_true_iff, Z.eqb_neq in E3); try lia.
    all: split; nia.
Qed.

Lemma hp_start_0 : hp_start nside 0 = 0.
Proof using nside_range. unfold hp_start. repeat case_match; lia. Qed.

Lemma hp_start_end : hp_start nside (4 * nside - 1) = 12 * nside * nside.
Proof using nside_range. unfold hp_start. repeat case_match; lia. Qed.

Lemma hp_start_step (m : Z) :
  0 <= m < 4 * nside - 1 -> hp_start nside m < hp_start nside (m + 1).
Proof using nside_range M uninit w.
  intros Hm. destruct (healpix_ring_ofs m Hm) as [_ ->].
  pose proof (healpix_ring_nph_pos M uninit nside 1 w nside_range m Hm).
  fold npix ncap in H. lia.
Qed.

Lemma hp_start_mono (i j : Z) :
  0 <= i <= j -> j <= 4 * nside - 1 -> hp_start nside i <= hp_start nside j.
Proof using nside_range M uninit w.
  intros Hij Hj. replace j with (i + Z.of_nat (Z.to_nat (j - i))) in * by lia.
  induction (Z.to_nat (j - i)) as [|d IH].
  - rewrite Z.add_0_r. lia.
  - pose proof (hp_start_step (i + Z.of_nat d)).
    replace (i + Z.of_nat (S d)) with (i + Z.of_nat d + 1) in * by lia.
    lia.
Qed.

(** Every pixel below the start of ring [k] lies on one of the rings
    before it. *)
Lemma hp_start_locate (p : Z) (k : nat) :
  Z.of_nat k <= 4 * nside - 1 ->
  0 <= p < hp_start nside (Z.of_nat k) ->
  exists i : nat, (i < k)%nat /\
    hp_start nside (Z.of_nat i) <= p < hp_start nside (Z.of_nat i + 1).
Proof using nside_range.
  induction k as [|k IH]; intros Hk Hp.
  - change (Z.of_nat 0) with 0 in Hp. rewrite hp_start_0 in Hp. lia.
  - destruct (Z.lt_ge_cases p (hp_start nside (Z.of_nat k))) as [Hlt|Hge].
    + destruct IH as (i & Hi & Hin); [lia|lia|]. exists i. split; [lia|exact Hin].
    + exists k. split; [lia|]. replace (Z.of_nat k + 1) with (Z.of_nat (S k)) by lia.
      lia.
Qed.

End HealpixOffsets.

(** In the range of [int] the storage is there and the builder is its
    ring loop. *)
Lemma weighted_healpix_in_range (M : libm) (uninit : float)
    (nside stride : Z) (w : list float) :
  0 < nside < 2 ^ 29 ->
  sharp_make_weighted_healpix_geom_info M uninit nside stride w =
  Returned (GeomArgs (int32 (4 * nside - 1))
    (tabulate (int32 (4 * nside - 1))
       (healpix_ring M uninit nside stride w
          (int64 (nside * nside * 12))
          (int64 (2 * nside * int32 (nside - 1)))))).
Proof.
  intros Hn. unfold sharp_make_weighted_healpix_geom_info. cbv zeta.
  rewrite util_malloc_nonneg; [reflexivity|].
  change (2 ^ 29) with 536870912 in Hn.
  rewrite int32_small by (simpl; lia). lia.
Qed.

(** Just beyond that range the ring count wraps to a negative [int] and the
    storage is refused. *)
Lemma weighted_healpix_no_storage (M : libm) (uninit : float)
    (nside stride : Z) (w : list float) :
  2 ^ 29 < nside <= 2 ^ 30 ->
  sharp_make_weighted_healpix_geom_info M uninit nside stride w =
  Aborted "malloc() failed".
Proof.
  intros Hn. unfold sharp_make_weighted_healpix_geom_info. cbv zeta.
  rewrite util_malloc_negative; [reflexivity|].
  change (2 ^ 29) with 536870912 in Hn. change (2 ^ 30) with 1073741824 in Hn.
  unfold int32, wrap.
  change (2 ^ (32 - 1)) with 2147483648. change (2 ^ 32) with 4294967296.
  rewrite Z.mod_eq by lia.
  assert (Hq : (4 * nside - 1 + 2147483648) / 4294967296 = 1).
  { symmetry.
    apply Z.div_unique with (r := 4 * nside - 1 + 2147483648 - 4294967296); lia. }
  rewrite Hq. lia.
Qed.

Lemma healpix_in_range (M : libm) (uninit : float) (nside stride : Z) :
  0 < nside < 2 ^ 30 ->
  sharp_make_healpix_geom_info M uninit nside stride =
  sharp_make_weighted_healpix_geom_info M uninit nside stride
    (replicate (Z.to_nat (int32 (2 * nside))) 1%float).
Proof.
  intros Hn. unfold sharp_make_healpix_geom_info.
  rewrite RALLOC_nonneg; [reflexivity|].
  change (2 ^ 30) with 1073741824 in Hn.
  rewrite int32_small by (simpl; lia). lia.
Qed.

Lemma total_pixels_snoc (rs : list ring) (r : ring) :
  total_pixels (rs ++ [r]) = total_pixels rs + nph r.
Proof.
  unfold total_pixels. induction rs as [|r' rs IH]; simpl; [lia|].
  rewrite IH. lia.
Qed.

(** Rings whose pixel counts are the steps of [F] sum up to its growth. *)
Lemma total_pixels_tabulate (f : Z -> ring) (F : Z -> Z) (k : nat) :
  (forall m, 0 <= m < Z.of_nat k -> nph (f m) = F (m + 1) - F m) ->
  total_pixels (tabulate (Z.of_nat k) f) = F (Z.of_nat k) - F 0.
Proof.
  induction k as [|k IH]; intros Hstep.
  - unfold tabulate. change (Z.of_nat 0) with 0.
    rewrite seqZ_nil by lia. unfold total_pixels. simpl. lia.
  - unfold tabulate in *. rewrite seqZ_S, fmap_app.
    change (f <$> [0 + Z.of_nat k]) with [f (Z.of_nat k)].
    rewrite total_pixels_snoc.
    rewrite IH by (intros m Hm; apply Hstep; lia).
    rewrite Hstep by lia.
    replace (Z.of_nat (S k)) with (Z.of_nat k + 1) by lia. lia.
Qed.

Section HealpixClaims.

Context (M : libm) (uninit : float).

Lemma healpix_ring_ofs_formula (nside : Z) (w : list float) (m : Z) :
  0 < nside < 2 ^ 29 -> 0 <= m < 4 * nside - 1 ->
  let r := healpix_ring M uninit nside 1 w
             (int64 (nside * nside * 12))
             (int64 (2 * nside * int32 (nside - 1))) m in
  let nr := hp_northring nside m in
  let o := if nr <? nside then 2 * nr * (nr - 1)
           else 2 * nside * (nside - 1) + (nr - nside) * (4 * nside) in
  ofs r = if nr =? m + 1 then o else (12 * nside * nside - nph r) * 1 - o.
Proof.
  intros Hn Hm. cbv zeta. rewrite healpix_ring_nph by assumption.
  unfold healpix_ring, hp_northring. cbv zeta.
  change (2 ^ 29) with 536870912 in Hn.
  unwrap.
  destruct (m + 1 >? 2 * nside) eqn:E1.
  - unwrap. destruct (4 * nside - (m + 1) <? nside) eqn:E2;
      destruct (4 * nside - (m + 1) =? m + 1) eqn:E3; simpl; unwrap; lia.
  - destruct (m + 1 <? nside) eqn:E2;
      destruct (m + 1 =? m + 1) eqn:E3; simpl; unwrap; lia.
Qed.

(** C5, within the range of [int].  For [0 < nside < 2^29] the builder
    hands [4*nside-1] rings to [sharp_make_geom_info]; polar cap rings have
    [4*northring] pixels, the others [4*nside], and the pixel counts sum up
    to [12*nside^2]. *)
Theorem healpix_ring_count_and_pixel_sum (nside stride : Z) (w : list float) :
  0 < nside < 2 ^ 29 ->
  exists g : geom_args,
    sharp_make_weighted_healpix_geom_info M uninit nside stride w = Returned g /\
    nrings g = 4 * nside - 1 /\
    Z.of_nat (length (rings g)) = 4 * nside - 1 /\
    total_pixels (rings g) = 12 * nside * nside /\
    forall (i : nat) (r : ring), rings g !! i = Some r ->
      nph r = if hp_northring nside (Z.of_nat i) <? nside
              then 4 * hp_northring nside (Z.of_nat i) else 4 * nside.
Proof.
  intros Hn. eexists. split; [apply weighted_healpix_in_range, Hn|].
  cbn [nrings rings].
  assert (Hr : int32 (4 * nside - 1) = 4 * nside - 1).
  { change (2 ^ 29) with 536870912 in Hn. apply int32_small. simpl. lia. }
  rewrite Hr. split; [reflexivity|].
  split; [rewrite length_tabulate; lia|]. split.
  - replace (4 * nside - 1) with (Z.of_nat (Z.to_nat (4 * nside - 1))) by lia.
    rewrite (total_pixels_tabulate _ (hp_start nside)).
    + rewrite hp_start_0 by exact Hn. rewrite Z2Nat.id by lia.
      rewrite hp_start_end by exact Hn. lia.
    + intros m Hm. rewrite Z2Nat.id in Hm by lia.
      destruct (healpix_ring_ofs M uninit nside w Hn m Hm) as [_ ->].
      rewrite !healpix_ring_nph by assumption. lia.
  - intros i r (-> & Hi)%lookup_tabulate.
    apply healpix_ring_nph; [exact Hn|lia].
Qed.

(** C10, within the range of [int].  For [0 < nside < 2^29] and stride 1
    the offsets are those of the source's three formulas, a pixel index
    lies on some ring exactly when it is in [[0, 12*nside^2)], and no pixel
    index lies on two rings. *)
Theorem healpix_rings_tile_pixels (nside : Z) (w : list float) :
  0 < nside < 2 ^ 29 ->
  exists g : geom_args,
    sharp_make_weighted_healpix_geom_info M uninit nside 1 w = Returned g /\
    (forall (i : nat) (r : ring), rings g !! i = Some r ->
       let nr := hp_northring nside (Z.of_nat i) in
       let o := if nr <? nside then 2 * nr * (nr - 1)
                else 2 * nside * (nside - 1) + (nr - nside) * (4 * nside) in
       ofs r = if nr =? Z.of_nat i + 1 then o
               else (12 * nside * nside - nph r) * 1 - o) /\
    (forall p : Z,
       0 <= p < 12 * nside * nside <->
       exists (i : nat) (r : ring), rings g !! i = Some r /\ covers r p) /\
    (forall (p : Z) (i j : nat) (r r' : ring),
       rings g !! i = Some r -> rings g !! j = Some r' ->
       covers r p -> covers r' p -> i = j).
Proof.
  intros Hn. eexists. split; [apply weighted_healpix_in_range, Hn|].
  cbn [rings].
  assert (Hr : int32 (4 * nside - 1) = 4 * nside - 1).
  { change (2 ^ 29) with 536870912 in Hn. apply int32_small. simpl. lia. }
  rewrite Hr.
  assert (Hcov : forall (i : nat) (r : ring) (p : Z),
            tabulate (4 * nside - 1)
              (healpix_ring M uninit nside 1 w (int64 (nside * nside * 12))
                 (int64 (2 * nside * int32 (nside - 1)))) !! i = Some r ->
            (covers r p <->
             hp_start nside (Z.of_nat i) <= p < hp_start nside (Z.of_nat i + 1))
            /\ Z.of_nat i < 4 * nside - 1).
  { intros i r p (-> & Hi)%lookup_tabulate. split; [|exact Hi].
    unfold covers.
    destruct (healpix_ring_ofs M uninit nside w Hn (Z.of_nat i)) as [-> ->];
      [lia|]. reflexivity. }
  split; [|split].
  - intros i r (-> & Hi)%lookup_tabulate.
    apply healpix_ring_ofs_formula; [exact Hn|lia].
  - intros p. split.
    + intros Hp.
      destruct (hp_start_locate nside Hn p (Z.to_nat (4 * nside - 1)))
        as (i & Hi & Hin).
      * lia.
      * rewrite Z2Nat.id by lia. rewrite hp_start_end by exact Hn. exact Hp.
      * eexists i, _. split; [apply lookup_tabulate; split; [reflexivity|lia]|].
        eapply Hcov; [apply lookup_tabulate; split; [reflexivity|lia]|exact Hin].
    + intros (i & r & Hl & Hc). destruct (Hcov i r p Hl) as [Hiff Hi].
      apply Hiff in Hc.
      pose proof (hp_start_mono M uninit nside w Hn 0 (Z.of_nat i)) as H0.
      pose proof (hp_start_mono M uninit nside w Hn (Z.of_nat i + 1)
                    (4 * nside - 1)) as H1.
      rewrite hp_start_0 in H0 by exact Hn.
      rewrite hp_start_end in H1 by exact Hn. lia.
  - intros p i j r r' Hl Hl' Hc Hc'.
    destruct (Hcov i r p Hl) as [Hiff Hi]. apply Hiff in Hc.
    destruct (Hcov j r' p Hl') as [Hiff' Hj]. apply Hiff' in Hc'.
    destruct (Nat.lt_trichotomy i j) as [Hlt|[Heq|Hgt]]; [|exact Heq|].
    + pose proof (hp_start_mono M uninit nside w Hn (Z.of_nat i + 1)
                    (Z.of_nat j)). lia.
    + pose proof (hp_start_mono M uninit nside w Hn (Z.of_nat j + 1)
                    (Z.of_nat i)). lia.
Qed.

End HealpixClaims.

(** C5 at [nside = 1]: three rings and twelve pixels. *)
Lemma healpix_ring_count_nside_1 :
  0 < 1 < 2 ^ 29 /\
  exists g : geom_args,
    sharp_make_weighted_healpix_geom_info libm_ref 0%float 1 1 [1; 1]%float = Returned g /\
    nrings g = 3 /\ total_pixels (rings g) = 12.
Proof.
  split; [lia|].
  destruct (healpix_ring_count_and_pixel_sum libm_ref 0%float 1 1 [1; 1]%float)
    as (g & Hg & Hn & _ & Hsum & _); [lia|].
  exists g. split; [exact Hg|]. split; [exact Hn|exact Hsum].
Defined.

(** C5 beyond the range of [int]: for [nside = 2^30 + 1] the ring count
    [4*nside-1] does not fit [int nrings]; it wraps to 3, and the builder
    hands on three rings with 12, 8 and 4 pixels. *)
Lemma healpix_ring_count_overflow :
  exists g : geom_args,
    sharp_make_weighted_healpix_geom_info libm_ref 0%float 1073741825 1
      [1; 1; 1]%float = Returned g /\
    nrings g = 3 /\ (nph <$> rings g) = [12; 8; 4] /\
    nrings g <> 4 * 1073741825 - 1 /\
    Z.of_nat (length (rings g)) <> 4 * 1073741825 - 1 /\
    total_pixels (rings g) <> 12 * 1073741825 * 1073741825.
Proof.
  eexists. split; [vm_compute; reflexivity|]. cbn [nrings rings].
  split; [reflexivity|]. split; [reflexivity|].
  split; [discriminate|]. split; discriminate.
Qed.

(** C10 at [nside = 1]: pixel 5 lies on exactly one ring. *)
Lemma healpix_rings_tile_nside_1 :
  0 < 1 < 2 ^ 29 /\
  exists g : geom_args,
    sharp_make_weighted_healpix_geom_info libm_ref 0%float 1 1 [1; 1]%float = Returned g /\
    exists (i : nat) (r : ring), rings g !! i = Some r /\ covers r 5.
Proof.
  split; [lia|].
  destruct (healpix_rings_tile_pixels libm_ref 0%float 1 [1; 1]%float)
    as (g & Hg & _ & Hcover & _); [lia|].
  exists g. split; [exact Hg|]. apply Hcover. lia.
Defined.

(** C10 beyond the range of [int]: for [nside = 2^30 + 1] three rings are
    built, with 24 pixels in all, and pixel 0 lies on none of them. *)
Lemma healpix_rings_tile_overflow :
  exists g : geom_args,
    sharp_make_weighted_healpix_geom_info libm_ref 0%float 1073741825 1
      [1; 1; 1]%float = Returned g /\
    ((fun r => (ofs r, nph r)) <$> rings g) =
      [(-4611685992657584140, 12); (4, 8); (-4611685992657584120, 4)] /\
    0 <= 0 < 12 * 1073741825 * 1073741825 /\
    ~ exists (i : nat) (r : ring), rings g !! i = Some r /\ covers r 0.
Proof.
  eexists. split; [vm_compute; reflexivity|]. cbn [rings].
  split; [reflexivity|]. split; [lia|].
  intros (i & r & Hl & Hc).
  apply (f_equal (fmap (fun r => (ofs r, nph r)))) in Hl.
  unfold covers in Hc.
  destruct i as [|[|[|i]]]; cbn in Hl;
    [injection Hl as Ho Hp; lia ..|discriminate].
Qed.

(** ** The rings of the HEALPix grid one by one *)

Section HealpixRing.

Context (M : libm) (uninit : float).

Lemma hp_northring_range (nside m : Z) :
  0 < nside -> 0 <= m < 4 * nside - 1 ->
  1 <= hp_northring nside m <= 2 * nside.
Proof. intros Hn Hm. unfold hp_northring. case_match; lia. Qed.

Lemma hp_northring_mirror (nside m : Z) :
  0 <= m < 2 * nside - 1 ->
  hp_northring nside (4 * nside - 2 - m) = hp_northring nside m /\
  hp_northring nside m = m + 1.
Proof. intros Hm. unfold hp_northring. repeat case_match; lia. Qed.

(** The ring of index [m] without wrap-around. *)
Lemma healpix_ring_unfold (nside stride : Z) (w : list float) (m : Z) :
  0 < nside < 2 ^ 29 -> 0 <= m < 4 * nside - 1 ->
  let nr := hp_northring nside m in
  let npix := 12 * nside * nside in
  let north :=
    if nr <? nside then
      ((2 * m_asin M (Z2F nr / (sqrt 6 * Z2F nside)))%float,
       4 * nr, (pi / Z2F (4 * nr))%float,
       int64 (2 * nr * (nr - 1) * stride))
    else
      (m_acos M (Z2F (2 * nside - nr) * (8 * Z2F nside / Z2F npix))%float,
       4 * nside,
       if Z.odd (nr - nside) then 0%float else (pi / Z2F (4 * nside))%float,
       int64 ((2 * nside * (nside - 1) + (nr - nside) * (4 * nside)) * stride)) in
  healpix_ring M uninit nside stride w
    (int64 (nside * nside * 12)) (int64 (2 * nside * int32 (nside - 1))) m
  = let '(th, np, p0, o) := north in
    Ring (if m + 1 >? 2 * nside then pi - th else th)%float np p0
         (if m + 1 >? 2 * nside then int64 ((npix - np) * stride - o) else o)
         stride
         (4 * pi / Z2F npix * read uninit w (nr - 1))%float.
Proof.
  intros Hn Hm. cbv zeta. unfold healpix_ring, hp_northring. cbv zeta.
  change (2 ^ 29) with 536870912 in Hn.
  rewrite land_1_odd.
  unwrap.
  replace (nside * nside * 12) with (12 * nside * nside) by lia.
  destruct (m + 1 >? 2 * nside) eqn:E1.
  - unwrap. destruct (4 * nside - (m + 1) <? nside) eqn:E2.
    + destruct (4 * nside - (m + 1) =? m + 1) eqn:E3; [lia|]. simpl. unwrap.
      reflexivity.
    + destruct (4 * nside - (m + 1) =? m + 1) eqn:E3; [lia|]. simpl. unwrap.
      destruct (Z.odd (4 * nside - (m + 1) - nside)); reflexivity.
  - rewrite Z.eqb_refl. simpl. destruct (m + 1 <? nside) eqn:E2.
    + unwrap. reflexivity.
    + unwrap. destruct (Z.odd (m + 1 - nside)); reflexivity.
Qed.

(** X4. For [0 < nside < 2^29], ring [4*nside-2-m] is ring [m] of the
    northern hemisphere seen from the south pole: the same [nph], [phi0],
    [weight] and stride, the colatitude [pi - theta[m]] and the offset
    [(npix - nph[m])*stride - ofs[m]]. *)
Theorem healpix_rings_mirrored (nside stride : Z) (w : list float)
    (g : geom_args) (m : Z) (r r' : ring) :
  0 < nside < 2 ^ 29 -> 0 <= m < 2 * nside - 1 ->
  sharp_make_weighted_healpix_geom_info M uninit nside stride w = Returned g ->
  rings g !! Z.to_nat m = Some r ->
  rings g !! Z.to_nat (4 * nside - 2 - m) = Some r' ->
  nph r' = nph r /\ phi0 r' = phi0 r /\ weight r' = weight r /\
  stride_ r' = stride_ r /\
  theta r' = (pi - theta r)%float /\
  ofs r' = int64 ((12 * nside * nside - nph r) * stride - ofs r).
Proof.
  intros Hn Hm Hg Hr Hr'.
  rewrite weighted_healpix_in_range in Hg by exact Hn.
  injection Hg as <-. cbn [rings] in Hr, Hr'.
  apply lookup_tabulate in Hr as [-> _], Hr' as [-> _].
  rewrite !Z2Nat.id by lia.
  change (2 ^ 29) with 536870912 in Hn.
  rewrite !healpix_ring_unfold by (change (2 ^ 29) with 536870912; lia).
  cbv zeta.
  destruct (hp_northring_mirror nside m Hm) as [-> ->].
  destruct (4 * nside - 2 - m + 1 >? 2 * nside) eqn:E1; [|lia].
  destruct (m + 1 >? 2 * nside) eqn:E2; [lia|].
  destruct (m + 1 <? nside); cbn [nph phi0 weight stride_ theta ofs];
    repeat split; reflexivity.
Qed.

(** X15. For [0 < nside < 2^29] and a stride with [12*nside^2*|stride| <
    2^63], the offset of every ring is the stride times the number of
    pixels on the rings before it. *)
Theorem healpix_offsets_scale_with_stride (nside stride : Z) (w : list float)
    (g : geom_args) (i : nat) (r : ring) :
  0 < nside < 2 ^ 29 -> 12 * nside * nside * Z.abs stride < 2 ^ 63 ->
  sharp_make_weighted_healpix_geom_info M uninit nside stride w = Returned g ->
  rings g !! i = Some r ->
  stride_ r = stride /\ ofs r = stride * hp_start nside (Z.of_nat i).
Proof.
  intros Hn Hs Hg Hr.
  rewrite weighted_healpix_in_range in Hg by exact Hn.
  injection Hg as <-. cbn [rings] in Hr.
  assert (Hr32 : int32 (4 * nside - 1) = 4 * nside - 1).
  { change (2 ^ 29) with 536870912 in Hn. apply int32_small. simpl. lia. }
  rewrite Hr32 in Hr.
  apply lookup_tabulate in Hr as [-> Hi].
  set (m := Z.of_nat i) in *. assert (Hm : 0 <= m < 4 * nside - 1) by lia.
  rewrite healpix_ring_unfold by assumption. cbv zeta.
  pose proof (hp_northring_range nside m ltac:(lia) Hm) as Hnr.
  assert (Hsc : forall a, 0 <= a <= 12 * nside * nside ->
                  - 2 ^ 63 < a * stride < 2 ^ 63).
  { intros a Ha. apply (scaled_in_range a (12 * nside * nside)); assumption. }
  unfold hp_northring, hp_start in *.
  destruct (m + 1 >? 2 * nside) eqn:E1.
  - destruct (4 * nside - (m + 1) <? nside) eqn:E2;
      cbn [stride_ ofs]; (split; [reflexivity|]).
    + pose proof (Hsc (2 * (4 * nside - (m + 1)) * (4 * nside - (m + 1) - 1))
                    ltac:(nia)).
      pose proof (Hsc (12 * nside * nside - 4 * (4 * nside - (m + 1))
                       - 2 * (4 * nside - (m + 1)) * (4 * nside - (m + 1) - 1))
                    ltac:(nia)).
      rewrite (int64_small (2 * _ * _ * stride)) by lia.
      rewrite int64_small by lia.
      destruct (m <? nside) eqn:E3; [lia|].
      destruct (m <? 3 * nside) eqn:E4; [lia|]. lia.
    + pose proof (Hsc (2 * nside * (nside - 1)
                       + (4 * nside - (m + 1) - nside) * (4 * nside))
                    ltac:(nia)).
      pose proof (Hsc (12 * nside * nside - 4 * nside
                       - (2 * nside * (nside - 1)
                          + (4 * nside - (m + 1) - nside) * (4 * nside)))
                    ltac:(nia)).
      rewrite (int64_small ((2 * nside * (nside - 1) + _) * stride)) by lia.
      rewrite int64_small by lia.
      destruct (m <? nside) eqn:E3; [lia|].
      destruct (m <? 3 * nside) eqn:E4; [|lia]. lia.
  - destruct (m + 1 <? nside) eqn:E2;
      cbn [stride_ ofs]; (split; [reflexivity|]).
    + pose proof (Hsc (2 * (m + 1) * (m + 1 - 1)) ltac:(nia)).
      rewrite int64_small by lia.
      destruct (m <? nside) eqn:E3; [|lia]. lia.
    + pose proof (Hsc (2 * nside * (nside - 1) + (m + 1 - nside) * (4 * nside))
                    ltac:(nia)).
      rewrite int64_small by lia.
      destruct (m <? nside) eqn:E3; [nia|].
      destruct (m <? 3 * nside) eqn:E4; [|lia]. lia.
Qed.

End HealpixRing.

(** X4 at [nside = 1]: rings 0 and 2. *)
Lemma healpix_rings_mirrored_1 :
  0 < 1 < 2 ^ 29 /\ 0 <= 0 < 2 * 1 - 1 /\
  exists (g : geom_args) (r r' : ring),
    sharp_make_weighted_healpix_geom_info libm_ref 0 1 1 [1; 1]%float = Returned g /\
    rings g !! Z.to_nat 0 = Some r /\
    rings g !! Z.to_nat (4 * 1 - 2 - 0) = Some r' /\
    nph r' = nph r /\ phi0 r' = phi0 r /\ weight r' = weight r /\
    stride_ r' = stride_ r /\
    theta r' = (pi - theta r)%float /\
    ofs r' = int64 ((12 * 1 * 1 - nph r) * 1 - ofs r).
Proof.
  split; [simpl; lia|]. split; [lia|].
  eexists _, _, _. split; [reflexivity|]. split; [reflexivity|].
  split; [reflexivity|].
  eapply (healpix_rings_mirrored libm_ref 0 1 1 [1; 1]%float _ 0);
    [simpl; lia|lia|reflexivity|reflexivity|reflexivity].
Defined.

(** X15 at [nside = 2] and stride 3: ring 5. *)
Lemma healpix_offsets_scale_with_stride_2 :
  0 < 2 < 2 ^ 29 /\ 12 * 2 * 2 * Z.abs 3 < 2 ^ 63 /\
  exists (g : geom_args) (r : ring),
    sharp_make_weighted_healpix_geom_info libm_ref 0 2 3 [1; 1; 1; 1]%float
    = Returned g /\
    rings g !! 5%nat = Some r /\
    stride_ r = 3 /\ ofs r = 3 * hp_start 2 (Z.of_nat 5).
Proof.
  split; [simpl; lia|]. split; [simpl; lia|].
  eexists _, _. split; [reflexivity|]. split; [reflexivity|].
  eapply (healpix_offsets_scale_with_stride libm_ref 0 2 3 [1; 1; 1; 1]%float _ 5%nat);
    [simpl; lia|simpl; lia|reflexivity|reflexivity].
Defined.

(** X16. For [0 < nside < 2^29] the builder reads the entries [0 <= k <
    2*nside] of [weight] and nothing else: two arrays that agree there
    give the same geometry, whatever lies behind them or outside them. *)
Theorem healpix_reads_first_weights (M : libm) (nside stride : Z)
    (w1 w2 : list float) (u1 u2 : float) :
  0 < nside < 2 ^ 29 ->
  (Z.to_nat (2 * nside) <= length w1)%nat ->
  (forall k : nat, (k < Z.to_nat (2 * nside))%nat -> w1 !! k = w2 !! k) ->
  sharp_make_weighted_healpix_geom_info M u1 nside stride w1
  = sharp_make_weighted_healpix_geom_info M u2 nside stride w2.
Proof.
  intros Hn Hlen Hw. rewrite !weighted_healpix_in_range by exact Hn.
  assert (Hr32 : int32 (4 * nside - 1) = 4 * nside - 1).
  { change (2 ^ 29) with 536870912 in Hn. apply int32_small. simpl. lia. }
  rewrite Hr32. do 2 f_equal. apply tabulate_ext. intros m Hm.
  rewrite !healpix_ring_unfold by assumption. cbv zeta.
  pose proof (hp_northring_range nside m ltac:(lia) Hm) as Hnr.
  rewrite (read_in_bounds u1 u2 w1 w2 (hp_northring nside m - 1) (2 * nside))
    by (lia || assumption).
  reflexivity.
Qed.

(** X16 at [nside = 1]. *)
Lemma healpix_reads_first_weights_1 :
  0 < 1 < 2 ^ 29 /\
  (Z.to_nat (2 * 1) <= length [2; 3; 5]%float)%nat /\
  (forall k : nat, (k < Z.to_nat (2 * 1))%nat ->
     [2; 3; 5]%float !! k = [2; 3]%float !! k) /\
  sharp_make_weighted_healpix_geom_info libm_ref 0 1 1 [2; 3; 5]%float
  = sharp_make_weighted_healpix_geom_info libm_ref 7 1 1 [2; 3]%float.
Proof.
  assert (H : forall k : nat, (k < Z.to_nat (2 * 1))%nat ->
     [2; 3; 5]%float !! k = [2; 3]%float !! k).
  { intros [|[|k]] Hk; [reflexivity|reflexivity|simpl in Hk; lia]. }
  split; [simpl; lia|]. split; [simpl; lia|]. split; [exact H|].
  apply (healpix_reads_first_weights libm_ref 1 1); [simpl; lia|simpl; lia|exact H].
Defined.

(** X18. For [0 < nside < 2^29] the first pixel of a ring lies half a
    pixel width from longitude 0, at [pi/nph], except on the rings of the
    equatorial belt with an odd [northring - nside], where it lies at
    longitude 0: neighbouring belt rings are shifted by half a pixel. *)
Theorem healpix_first_longitude (M : libm) (uninit : float)
    (nside stride : Z) (w : list float)
    (g : geom_args) (i : nat) (r : ring) :
  0 < nside < 2 ^ 29 ->
  sharp_make_weighted_healpix_geom_info M uninit nside stride w = Returned g ->
  rings g !! i = Some r ->
  let nr := hp_northring nside (Z.of_nat i) in
  phi0 r = if (nside <=? nr) && Z.odd (nr - nside) then 0%float
           else (pi / Z2F (nph r))%float.
Proof.
  intros Hn Hg Hr. cbv zeta.
  rewrite weighted_healpix_in_range in Hg by exact Hn.
  injection Hg as <-. cbn [rings] in Hr.
  assert (Hr32 : int32 (4 * nside - 1) = 4 * nside - 1).
  { change (2 ^ 29) with 536870912 in Hn. apply int32_small. simpl. lia. }
  rewrite Hr32 in Hr. apply lookup_tabulate in Hr as [-> Hi].
  rewrite healpix_ring_unfold by (assumption || lia). cbv zeta.
  destruct (hp_northring nside (Z.of_nat i) <? nside) eqn:E.
  - cbn [phi0 nph].
    replace (nside <=? hp_northring nside (Z.of_nat i)) with false
      by (symmetry; apply Z.leb_gt; lia).
    reflexivity.
  - cbn [phi0 nph].
    replace (nside <=? hp_northring nside (Z.of_nat i)) with true
      by (symmetry; apply Z.leb_le; lia).
    destruct (Z.odd _); reflexivity.
Qed.

(** X18 at [nside = 2]: ring 2, where [northring - nside] is odd. *)
Lemma healpix_first_longitude_2 :
  0 < 2 < 2 ^ 29 /\
  exists (g : geom_args) (r : ring),
    sharp_make_weighted_healpix_geom_info libm_ref 0 2 1 [1; 1; 1; 1]%float
    = Returned g /\
    rings g !! 2%nat = Some r /\
    phi0 r = if (2 <=? hp_northring 2 (Z.of_nat 2))
                && Z.odd (hp_northring 2 (Z.of_nat 2) - 2) then 0%float
             else (pi / Z2F (nph r))%float.
Proof.
  split; [simpl; lia|].
  eexists _, _. split; [reflexivity|]. split; [reflexivity|].
  eapply (healpix_first_longitude libm_ref 0 2 1 [1; 1; 1; 1]%float _ 2%nat);
    [simpl; lia|reflexivity|reflexivity].
Defined.

(** ** The unweighted HEALPix builder *)

Section HealpixUniform.

Context (M : libm) (uninit : float).

(** C8, within the range of [int].  For [0 < nside < 2^30] the builder
    without weights returns what the weighted builder returns for any
    array of [2*nside] ones: the same outcome, so the same [theta], [nph],
    [phi0], [ofs], [stride_] and [weight] of every ring. *)
Theorem healpix_uniform_is_weighted_by_ones (nside stride : Z)
    (w : list float) :
  0 < nside < 2 ^ 30 ->
  length w = Z.to_nat (2 * nside) ->
  Forall (fun v => v = 1%float) w ->
  sharp_make_healpix_geom_info M uninit nside stride
  = sharp_make_weighted_healpix_geom_info M uninit nside stride w.
Proof.
  intros Hn Hlen Hones. rewrite healpix_in_range by exact Hn.
  rewrite int32_small by (change (2 ^ 30) with 1073741824 in Hn; simpl; lia).
  f_equal. apply replicate_as_Forall. split; [exact Hlen|].
  eapply Forall_impl; [exact Hones|]. intros v ->. reflexivity.
Qed.

Lemma healpix_ring_weight (nside stride : Z) (w : list float)
    (npix ncap m : Z) :
  weight (healpix_ring M uninit nside stride w npix ncap m) =
  (4 * pi / Z2F npix *
   read uninit w
     (int64 ((if int32 (m + 1) >? int32 (2 * nside)
              then int32 (int32 (4 * nside) - int32 (m + 1))
              else int32 (m + 1)) - 1)))%float.
Proof. unfold healpix_ring. cbv zeta. repeat case_match; reflexivity. Qed.

End HealpixUniform.

(** C8 at [nside = 1]. *)
Lemma healpix_uniform_nside_1 :
  0 < 1 < 2 ^ 30 /\
  sharp_make_healpix_geom_info libm_ref 0%float 1 1
  = sharp_make_weighted_healpix_geom_info libm_ref 0%float 1 1 [1; 1]%float.
Proof.
  split; [lia|].
  apply (healpix_uniform_is_weighted_by_ones libm_ref 0%float 1 1 [1; 1]%float).
  - lia.
  - reflexivity.
  - repeat constructor.
Defined.

(** C8 beyond the range of [int]: for [nside = 2^30 + 1] the length
    [2*nside] of the array of ones wraps to a negative [int] and the builder
    without weights stops in its request for storage, while the weighted
    builder, given [2*nside] ones, hands on the three rings that
    [4*nside-1] wraps to. *)
Lemma healpix_uniform_overflow :
  length (replicate (Z.to_nat (2 * 1073741825)) 1%float)
  = Z.to_nat (2 * 1073741825) /\
  Forall (fun v => v = 1%float) (replicate (Z.to_nat (2 * 1073741825)) 1%float) /\
  sharp_make_healpix_geom_info libm_ref 0%float 1073741825 1
  = Aborted "malloc() failed" /\
  (exists g : geom_args,
     sharp_make_weighted_healpix_geom_info libm_ref 0%float 1073741825 1
       (replicate (Z.to_nat (2 * 1073741825)) 1%float) = Returned g /\
     nrings g = 3) /\
  sharp_make_healpix_geom_info libm_ref 0%float 1073741825 1
  <> sharp_make_weighted_healpix_geom_info libm_ref 0%float 1073741825 1
       (replicate (Z.to_nat (2 * 1073741825)) 1%float).
Proof.
  assert (Hu : sharp_make_healpix_geom_info libm_ref 0%float 1073741825 1
               = Aborted "malloc() failed").
  { unfold sharp_make_healpix_geom_info.
    change (int32 (2 * 1073741825)) with (-2147483646).
    rewrite RALLOC_negative by lia. reflexivity. }
  assert (Hw : forall w : list float,
            exists g : geom_args,
              sharp_make_weighted_healpix_geom_info libm_ref 0%float
                1073741825 1 w = Returned g /\ nrings g = 3).
  { intros w. unfold sharp_make_weighted_healpix_geom_info. cbv zeta.
    change (int32 (4 * 1073741825 - 1)) with 3.
    rewrite util_malloc_nonneg by lia. eexists. split; reflexivity. }
  split; [apply length_replicate|].
  split; [apply Forall_replicate; reflexivity|].
  split; [exact Hu|]. split; [apply Hw|].
  rewrite Hu.
  destruct (Hw (replicate (Z.to_nat (2 * 1073741825)) 1%float)) as (g & -> & _).
  discriminate.
Qed.

(** With [nside = 1] the HEALPix builder hands three rings of four
    pixels to [sharp_make_geom_info], at the offsets 0, 4 and 8 for
    stride 1, whatever the C library and the weights are. *)
Example healpix_nside_1_rings (M : libm) (uninit : float) (w : list float) :
  exists g : geom_args,
    sharp_make_weighted_healpix_geom_info M uninit 1 1 w = Returned g /\
    nrings g = 3 /\ (nph <$> rings g) = [4; 4; 4] /\
    (ofs <$> rings g) = [0; 4; 8].
Proof.
  eexists. split; [reflexivity|]. split; [reflexivity|].
  split; reflexivity.
Qed.

(** X17. For [0 < nside < 2^29] every ring of the grid built without
    weights has the weight [4*pi/npix*1], with [npix = 12*nside^2]. *)
Theorem healpix_uniform_weights (M : libm) (uninit : float)
    (nside stride : Z) (g : geom_args) (i : nat) (r : ring) :
  0 < nside < 2 ^ 29 ->
  sharp_make_healpix_geom_info M uninit nside stride = Returned g ->
  rings g !! i = Some r ->
  weight r = (4 * pi / Z2F (12 * nside * nside) * 1)%float.
Proof.
  intros Hn Hg Hr.
  rewrite healpix_in_range in Hg
    by (change (2 ^ 29) with 536870912 in Hn; change (2 ^ 30) with 1073741824; lia).
  rewrite weighted_healpix_in_range in Hg by exact Hn.
  injection Hg as <-. cbn [rings] in Hr.
  assert (Hr32 : int32 (4 * nside - 1) = 4 * nside - 1).
  { change (2 ^ 29) with 536870912 in Hn. apply int32_small. simpl. lia. }
  assert (Hw32 : int32 (2 * nside) = 2 * nside).
  { change (2 ^ 29) with 536870912 in Hn. apply int32_small. simpl. lia. }
  rewrite Hr32, Hw32 in Hr.
  apply lookup_tabulate in Hr as [-> Hi].
  rewrite healpix_ring_unfold by (assumption || lia). cbv zeta.
  pose proof (hp_northring_range nside (Z.of_nat i) ltac:(lia) ltac:(lia)) as Hnr.
  destruct (hp_northring nside (Z.of_nat i) <? nside); cbn [weight];
    unfold read; (destruct (_ <? 0) eqn:E; [lia|]);
    rewrite lookup_replicate_2 by lia; reflexivity.
Qed.

(** X17 at [nside = 1]: ring 2. *)
Lemma healpix_uniform_weights_1 :
  0 < 1 < 2 ^ 29 /\
  exists (g : geom_args) (r : ring),
    sharp_make_healpix_geom_info libm_ref 0 1 1 = Returned g /\
    rings g !! 2%nat = Some r /\
    weight r = (4 * pi / Z2F (12 * 1 * 1) * 1)%float.
Proof.
  split; [simpl; lia|].
  eexists _, _. split; [reflexivity|]. split; [reflexivity|].
  eapply (healpix_uniform_weights libm_ref 0 1 1 _ 2%nat);
    [simpl; lia|reflexivity|reflexivity].
Defined.

(** ** Storage of the equidistant builders *)

(** With a ring count that is not negative the storage is there. *)
Lemma ecp_geom_info_nonneg (M : libm) (uninit : float)
    (n nphi : Z) (p0 : float) (stride_lon stride_lat : Z) :
  0 <= n ->
  sharp_make_ecp_geom_info M uninit n nphi p0 stride_lon stride_lat =
  if negb (Z.land n 1 =? 0) then
    Aborted "Even number of rings needed for equidistant grid!"
  else
    Returned (GeomArgs n
      (tabulate n (fun m =>
         Ring ((Z2F m + 0.5) * pi / Z2F n)%float nphi p0
              (int64 (m * stride_lat)) stride_lon
              (read uninit
                 (makeweights M (Z.quot n 2) (replicate (Z.to_nat n) uninit)) m
               * (2 * pi / Z2F nphi))%float))).
Proof.
  intros Hn. unfold sharp_make_ecp_geom_info.
  rewrite RALLOC_nonneg by exact Hn. reflexivity.
Qed.

Lemma ecp_geom_info_Returned (M : libm) (uninit : float)
    (n nphi : Z) (p0 : float) (stride_lon stride_lat : Z) (g : geom_args) :
  sharp_make_ecp_geom_info M uninit n nphi p0 stride_lon stride_lat = Returned g ->
  0 <= n.
Proof.
  intros Hg. destruct (Z.lt_ge_cases n 0) as [Hneg|Hpos]; [|exact Hpos].
  unfold sharp_make_ecp_geom_info in Hg.
  rewrite RALLOC_negative in Hg by exact Hneg.
  destruct (negb (Z.land n 1 =? 0)); discriminate.
Qed.

Lemma hw_geom_info_nonneg (M : libm)
    (n ppring : Z) (p0 : float) (stride_lon stride_lat : Z) :
  0 <= n ->
  sharp_make_hw_geom_info M n ppring p0 stride_lon stride_lat =
  if negb (Z.land n 1 =? 1) then Aborted "nrings must be an odd number"
  else
    Returned (GeomArgs n
      (tabulate n (fun m =>
         Ring (hw_theta n m) ppring p0
              (int64 (m * stride_lat)) stride_lon
              (hw_weight M (Z.quot (int32 (n - 1)) 2) ppring m)))).
Proof.
  intros Hn. unfold sharp_make_hw_geom_info.
  rewrite util_malloc_nonneg by exact Hn. reflexivity.
Qed.

Lemma hw_geom_info_Returned (M : libm)
    (n ppring : Z) (p0 : float) (stride_lon stride_lat : Z) (g : geom_args) :
  sharp_make_hw_geom_info M n ppring p0 stride_lon stride_lat = Returned g ->
  0 <= n.
Proof.
  intros Hg. destruct (Z.lt_ge_cases n 0) as [Hneg|Hpos]; [|exact Hpos].
  unfold sharp_make_hw_geom_info in Hg.
  rewrite util_malloc_negative in Hg by exact Hneg.
  destruct (negb (Z.land n 1 =? 1)); discriminate.
Qed.

(** ** Parity checks of the equidistant builders *)



(** ** [makeweights] and the equidistant cylindrical grid *)

Section MakeWeights.

Context (M : libm).

Lemma makeweights_loop_lookup (cnt : nat) :
  forall (j bw : Z) (ws : list float) (k : nat),
    0 <= j -> j + Z.of_nat cnt <= Z.of_nat (length ws) ->
    makeweights_loop M cnt j bw ws !! k =
    if decide (j <= Z.of_nat k < j + Z.of_nat cnt)
    then Some (makeweights_entry M bw (Z.of_nat k)) else ws !! k.
Proof.
  induction cnt as [|cnt IH]; intros j bw ws k Hj Hlen.
  - cbn [makeweights_loop]. destruct (decide _); [lia|reflexivity].
  - cbn [makeweights_loop]. rewrite IH by (rewrite ?store_length; lia).
    destruct (decide (j + 1 <= Z.of_nat k < j + 1 + Z.of_nat cnt)) as [H1|H1];
      destruct (decide (j <= Z.of_nat k < j + Z.of_nat (S cnt))) as [H2|H2];
      try lia; try reflexivity.
    + assert (Z.of_nat k = j) as Hk by lia. rewrite Hk.
      replace k with (Z.to_nat j) by lia. apply store_lookup_eq. lia.
    + rewrite <- (Nat2Z.id k) at 1 2. apply store_lookup_ne; lia.
Qed.

Lemma makeweights_loop_length (cnt : nat) :
  forall (j bw : Z) (ws : list float),
    length (makeweights_loop M cnt j bw ws) = length ws.
Proof.
  induction cnt as [|cnt IH]; intros j bw ws; cbn [makeweights_loop];
    [reflexivity|]. rewrite IH. apply store_length.
Qed.

Lemma makeweights_lookup (bw : Z) (ws : list float) (k : nat) :
  0 <= bw < 2 ^ 30 -> 2 * bw <= Z.of_nat (length ws) ->
  makeweights M bw ws !! k =
  if decide (Z.of_nat k < 2 * bw)
  then Some (makeweights_entry M bw (Z.of_nat k)) else ws !! k.
Proof.
  intros Hbw Hlen. unfold makeweights.
  rewrite int32_small by (change (2 ^ 30) with 1073741824 in Hbw; simpl; lia).
  rewrite makeweights_loop_lookup by lia.
  destruct (decide (0 <= Z.of_nat k < 0 + Z.of_nat (Z.to_nat (2 * bw))));
    destruct (decide (Z.of_nat k < 2 * bw)); try lia; reflexivity.
Qed.

(** X9.  For [0 <= bw < 2^30] and an array of at least [2*bw] entries,
    [makeweights] writes the entries [0 <= j < 2*bw], entry [j] being the
    value computed for [j], and leaves every other entry and the length of
    the array as they are. *)
Theorem makeweights_entries (bw : Z) (ws : list float) :
  0 <= bw < 2 ^ 30 -> 2 * bw <= Z.of_nat (length ws) ->
  length (makeweights M bw ws) = length ws /\
  forall k : nat,
    makeweights M bw ws !! k =
    if decide (Z.of_nat k < 2 * bw)
    then Some (makeweights_entry M bw (Z.of_nat k)) else ws !! k.
Proof.
  intros Hbw Hlen. split.
  - unfold makeweights. apply makeweights_loop_length.
  - intros k. apply makeweights_lookup; assumption.
Qed.

Lemma makeweights_sum_exact (bw j : Z) (fudge : float) (cnt : nat) :
  forall (k : Z) (tmpsum : float),
    0 <= j < 2 * bw -> bw <= 16384 -> 0 <= k -> k + Z.of_nat cnt <= bw ->
    makeweights_sum M cnt k j fudge tmpsum =
    fold_left
      (fun acc k =>
         acc + 1 / Z2F (2 * k + 1)
               * m_sin M (Z2F ((2 * j + 1) * (2 * k + 1)) * fudge))%float
      (seqZ k (Z.of_nat cnt)) tmpsum.
Proof.
  induction cnt as [|cnt IH]; intros k tmpsum Hj Hbw Hk Hle.
  - reflexivity.
  - cbn [makeweights_sum].
    rewrite seqZ_cons by lia. cbn [fold_left].
    replace (Z.pred (Z.of_nat (S cnt))) with (Z.of_nat cnt) by lia.
    rewrite IH by lia.
    rewrite (int32_small (2 * k + 1)) by (simpl; lia).
    rewrite (int32_small ((2 * j + 1) * (2 * k + 1))) by (simpl; nia).
    reflexivity.
Qed.

(** X19. Up to the bandwidth 16384, that is for cylindrical grids of up to
    32768 rings, every integer that [makeweights] forms fits an [int]:
    entry [j] is the sum of [1/(2k+1) * sin((2j+1)*(2k+1)*fudge)] over [0
    <= k < bw], added up in this order from 0, times [sin((2j+1)*fudge)]
    and [2/bw], with [fudge = pi/(4*bw)]. *)
Theorem makeweights_entry_exact (bw j : Z) :
  0 <= bw <= 16384 -> 0 <= j < 2 * bw ->
  makeweights_entry M bw j =
  (fold_left
     (fun acc k =>
        acc + 1 / Z2F (2 * k + 1)
              * m_sin M (Z2F ((2 * j + 1) * (2 * k + 1)) * (pi / Z2F (4 * bw))))
     (seqZ 0 bw) 0
   * m_sin M (Z2F (2 * j + 1) * (pi / Z2F (4 * bw)))
   * (2 / Z2F bw))%float.
Proof.
  intros Hbw Hj. unfold makeweights_entry. cbv zeta.
  rewrite (makeweights_sum_exact bw j) by lia.
  rewrite Z2Nat.id by lia.
  rewrite (int32_small (4 * bw)) by (simpl; lia).
  rewrite (int32_small (2 * j + 1)) by (simpl; lia).
  reflexivity.
Qed.

End MakeWeights.

(** X9 at [bw = 1] and an array of three entries. *)
Lemma makeweights_entries_1 :
  0 <= 1 < 2 ^ 30 /\ 2 * 1 <= Z.of_nat (length (replicate 3 0%float)) /\
  length (makeweights libm_ref 1 (replicate 3 0%float))
  = length (replicate 3 0%float) /\
  forall k : nat,
    makeweights libm_ref 1 (replicate 3 0%float) !! k =
    if decide (Z.of_nat k < 2 * 1)
    then Some (makeweights_entry libm_ref 1 (Z.of_nat k))
    else replicate 3 0%float !! k.
Proof.
  split; [simpl; lia|]. split; [simpl; lia|].
  apply (makeweights_entries libm_ref 1 (replicate 3 0%float)); simpl; lia.
Defined.

(** X19 at [bw = 1]: entry 1. *)
Lemma makeweights_entry_exact_1 :
  0 <= 1 <= 16384 /\ 0 <= 1 < 2 * 1 /\
  makeweights_entry libm_ref 1 1 =
  (fold_left
     (fun acc k =>
        acc + 1 / Z2F (2 * k + 1)
              * m_sin libm_ref (Z2F ((2 * 1 + 1) * (2 * k + 1)) * (pi / Z2F (4 * 1))))
     (seqZ 0 1) 0
   * m_sin libm_ref (Z2F (2 * 1 + 1) * (pi / Z2F (4 * 1)))
   * (2 / Z2F 1))%float.
Proof.
  split; [lia|]. split; [lia|].
  apply (makeweights_entry_exact libm_ref 1 1); lia.
Defined.

(** X10. For an even ring count [0 <= n <= INT_MAX],
    [sharp_make_ecp_geom_info] returns [n] rings: ring [m] has the
    colatitude [(m+0.5)*pi/n], the caller's [phi0], the offset
    [m*stride_lat] without wrap-around, and the weight that [makeweights]
    computed for [j = m] times [2*pi/nphi]. No ring reads a weight that
    [makeweights] has not written. *)
Theorem ecp_geom_info_rings (M : libm) (uninit : float)
    (n nphi : Z) (p0 : float) (stride_lon stride_lat : Z) :
  0 <= n <= INT_MAX -> Z.even n = true -> - 2 ^ 31 <= stride_lat < 2 ^ 31 ->
  sharp_make_ecp_geom_info M uninit n nphi p0 stride_lon stride_lat =
  Returned (GeomArgs n (tabulate n (fun m =>
    Ring ((Z2F m + 0.5) * pi / Z2F n)%float nphi p0
         (m * stride_lat) stride_lon
         (makeweights_entry M (n / 2) m * (2 * pi / Z2F nphi))%float))).
Proof.
  intros Hn Heven Hs. rewrite ecp_geom_info_nonneg by lia.
  rewrite land_1_odd, <- Z.negb_even, Heven. cbn [negb Z.eqb].
  do 2 f_equal. apply tabulate_ext. intros m Hm.
  unfold INT_MAX in Hn.
  assert (Hq : Z.quot n 2 = n / 2) by (apply Z.quot_div_nonneg; lia).
  assert (H2 : 2 * (n / 2) = n).
  { pose proof (Z.div_mod n 2 ltac:(lia)) as Hdm. pose proof (Zmod_even n) as He.
    rewrite Heven in He. lia. }
  rewrite Hq.
  pose proof (makeweights_lookup M (n / 2) (replicate (Z.to_nat n) uninit)
                (Z.to_nat m)) as Hw.
  rewrite Z2Nat.id in Hw by lia.
  specialize (Hw ltac:(change (2 ^ 30) with 1073741824; lia)
                 ltac:(rewrite length_replicate; lia)).
  destruct (decide (m < 2 * (n / 2))); [|lia].
  rewrite (read_lookup uninit _ _ m ltac:(lia) Hw).
  rewrite int64_small by (change (2 ^ 63) with 9223372036854775808;
                          change (2 ^ 31) with 2147483648 in Hs; nia).
  reflexivity.
Qed.

(** X10 at two rings. *)
Lemma ecp_geom_info_rings_2 :
  0 <= 2 <= INT_MAX /\ Z.even 2 = true /\ - 2 ^ 31 <= 8 < 2 ^ 31 /\
  sharp_make_ecp_geom_info libm_ref 0 2 8 0 1 8 =
  Returned (GeomArgs 2 (tabulate 2 (fun m =>
    Ring ((Z2F m + 0.5) * pi / Z2F 2)%float 8 0 (m * 8) 1
         (makeweights_entry libm_ref (2 / 2) m * (2 * pi / Z2F 8))%float))).
Proof.
  split; [unfold INT_MAX; lia|]. split; [reflexivity|]. split; [simpl; lia|].
  apply (ecp_geom_info_rings libm_ref 0 2 8 0 1 8);
    [unfold INT_MAX; lia|reflexivity|simpl; lia].
Defined.

(** ** Rows of the grids of equal rings *)

(** X11. Whenever one of the three builders of grids of equal rings
    returns, for a ring count [0 <= n < INT_MAX] and a row stride that is
    an [int], the geometry has [n] rings and ring [i] has [nphi] pixels,
    the stride [stride_lon] and the offset [i*stride_lat]: the product is
    formed in [ptrdiff_t] and does not wrap. *)
Theorem equidistant_ring_layout (M : libm) (uninit : float)
    (n nphi : Z) (p0 : float) (stride_lon stride_lat : Z) (g : geom_args) :
  0 <= n < INT_MAX -> - 2 ^ 31 <= stride_lat < 2 ^ 31 ->
  sharp_make_gauss_geom_info M uninit n nphi stride_lon stride_lat = Returned g \/
  sharp_make_ecp_geom_info M uninit n nphi p0 stride_lon stride_lat = Returned g \/
  sharp_make_hw_geom_info M n nphi p0 stride_lon stride_lat = Returned g ->
  nrings g = n /\ length (rings g) = Z.to_nat n /\
  forall (i : nat) (r : ring), rings g !! i = Some r ->
    nph r = nphi /\ stride_ r = stride_lon /\ ofs r = Z.of_nat i * stride_lat.
Proof.
  intros Hn Hs Hg. unfold INT_MAX in Hn.
  assert (Hofs : forall i : nat, Z.of_nat i < n ->
            int64 (Z.of_nat i * stride_lat) = Z.of_nat i * stride_lat).
  { intros i Hi. apply int64_small.
    change (2 ^ 63) with 9223372036854775808.
    change (2 ^ 31) with 2147483648 in Hs. nia. }
  destruct Hg as [Hg|[Hg|Hg]].
  - pose proof (gauss_geom_info_Returned _ _ _ _ _ _ _ Hg) as Hnonneg.
    rewrite gauss_geom_info_nonneg in Hg by exact Hnonneg.
    destruct (GaussLegendre.gauss_legendre_tbl M n _ _) as [[x' w']|msg];
      [|discriminate].
    injection Hg as <-. cbn [nrings rings].
    split; [reflexivity|]. split; [apply length_tabulate|].
    intros i r (-> & Hi)%lookup_tabulate. cbn [nph stride_ ofs].
    rewrite Hofs by exact Hi. repeat split; reflexivity.
  - pose proof (ecp_geom_info_Returned _ _ _ _ _ _ _ _ Hg) as Hnonneg.
    rewrite ecp_geom_info_nonneg in Hg by exact Hnonneg.
    destruct (negb (Z.land n 1 =? 0)); [discriminate|].
    injection Hg as <-. cbn [nrings rings].
    split; [reflexivity|]. split; [apply length_tabulate|].
    intros i r (-> & Hi)%lookup_tabulate. cbn [nph stride_ ofs].
    rewrite Hofs by exact Hi. repeat split; reflexivity.
  - pose proof (hw_geom_info_Returned _ _ _ _ _ _ _ Hg) as Hnonneg.
    rewrite hw_geom_info_nonneg in Hg by exact Hnonneg.
    destruct (negb (Z.land n 1 =? 1)); [discriminate|].
    injection Hg as <-. cbn [nrings rings].
    split; [reflexivity|]. split; [apply length_tabulate|].
    intros i r (-> & Hi)%lookup_tabulate. cbn [nph stride_ ofs].
    rewrite Hofs by exact Hi. repeat split; reflexivity.
Qed.

(** X11 at the equiangular grid of five rings. *)
Lemma equidistant_ring_layout_5 :
  0 <= 5 < INT_MAX /\ - 2 ^ 31 <= 8 < 2 ^ 31 /\
  exists g : geom_args,
    sharp_make_hw_geom_info libm_ref 5 8 0 1 8 = Returned g /\
    nrings g = 5 /\ length (rings g) = Z.to_nat 5 /\
    forall (i : nat) (r : ring), rings g !! i = Some r ->
      nph r = 8 /\ stride_ r = 1 /\ ofs r = Z.of_nat i * 8.
Proof.
  split; [unfold INT_MAX; lia|]. split; [simpl; lia|].
  eexists. split; [reflexivity|].
  apply (equidistant_ring_layout libm_ref 0 5 8 0 1 8);
    [unfold INT_MAX; lia|simpl; lia|right; right; reflexivity].
Defined.

(** X12. With no pixel on a ring ([nphi = 0] or [ppring = 0]), whenever
    one of the three builders of grids of equal rings returns, the weight
    of every ring is an infinity or not a number: the division by the
    pixel count is not guarded. *)
Theorem zero_pixels_weights_not_finite (M : libm) (uninit : float)
    (n : Z) (p0 : float) (stride_lon stride_lat : Z) (g : geom_args)
    (i : nat) (r : ring) :
  sharp_make_gauss_geom_info M uninit n 0 stride_lon stride_lat = Returned g \/
  sharp_make_ecp_geom_info M uninit n 0 p0 stride_lon stride_lat = Returned g \/
  sharp_make_hw_geom_info M n 0 p0 stride_lon stride_lat = Returned g ->
  rings g !! i = Some r ->
  is_finite (weight r) = false.
Proof.
  intros [Hg|[Hg|Hg]] Hr.
  - pose proof (gauss_geom_info_Returned _ _ _ _ _ _ _ Hg) as Hnonneg.
    rewrite gauss_geom_info_nonneg in Hg by exact Hnonneg.
    destruct (GaussLegendre.gauss_legendre_tbl M n _ _) as [[x' w']|msg];
      [|discriminate].
    injection Hg as <-. cbn [rings] in Hr.
    apply lookup_tabulate in Hr as [-> _]. cbn [weight].
    change (2 * pi / Z2F 0)%float with infinity.
    apply mul_infinity_not_finite.
  - pose proof (ecp_geom_info_Returned _ _ _ _ _ _ _ _ Hg) as Hnonneg.
    rewrite ecp_geom_info_nonneg in Hg by exact Hnonneg.
    destruct (negb (Z.land n 1 =? 0)); [discriminate|].
    injection Hg as <-. cbn [rings] in Hr.
    apply lookup_tabulate in Hr as [-> _]. cbn [weight].
    change (2 * pi / Z2F 0)%float with infinity.
    apply mul_infinity_not_finite.
  - pose proof (hw_geom_info_Returned _ _ _ _ _ _ _ Hg) as Hnonneg.
    rewrite hw_geom_info_nonneg in Hg by exact Hnonneg.
    destruct (negb (Z.land n 1 =? 1)); [discriminate|].
    injection Hg as <-. cbn [rings] in Hr.
    apply lookup_tabulate in Hr as [-> _]. cbn [weight].
    unfold hw_weight. cbv zeta. change (Z2F 0) with 0%float.
    apply div_zero_not_finite.
Qed.

(** X12 at the cylindrical grid of two rings. *)
Lemma zero_pixels_weights_not_finite_2 :
  exists (g : geom_args) (r : ring),
    sharp_make_ecp_geom_info libm_ref 0 2 0 0 1 0 = Returned g /\
    rings g !! 1%nat = Some r /\
    is_finite (weight r) = false.
Proof.
  eexists _, _. split; [reflexivity|]. split; [reflexivity|].
  eapply (zero_pixels_weights_not_finite libm_ref 0 2 0 1 0 _ 1%nat);
    [right; left; reflexivity|reflexivity].
Defined.

(** ** The equiangular builder with a single ring *)

Section DriscollHealy.

Local Open Scope float_scope.

(** C7.  With [nrings = 1] the half bandwidth [lmax] is 0 and [prefac] is
    [4*pi*0.5/0 = infinity]: whatever [cos] returns, the weight of the only
    ring is infinite or not a number.  The builder accepts the ring count
    (1 is odd) and hands that ring to [sharp_make_geom_info]. *)
Theorem hw_single_ring_weight_not_finite (M : libm) (ppring : Z) (p0 : float)
    (stride_lon stride_lat : Z) :
  exists r : ring,
    sharp_make_hw_geom_info M 1 ppring p0 stride_lon stride_lat
    = Returned (GeomArgs 1 [r]) /\
    is_finite (weight r) = false.
Proof.
  eexists. split; [reflexivity|].
  cbn [weight]. unfold hw_weight.
  change (4 * pi * eps 0 (int32 (2 * Z.quot (int32 (1 - 1)) 2))
          / Z2F (Z.quot (int32 (1 - 1)) 2)) with infinity.
  apply infinity_mul_div_not_finite.
Qed.

(** C6.  With [nrings = 1] the colatitude of the only ring is [0/0]: not a
    number, which both clamping comparisons let through.  With
    [nrings = 5] the colatitudes run from the lower to the upper clamp
    bound, strictly increasing, and [theta[m] + theta[4-m]] is [pi]. *)
Theorem hw_theta_single_ring_nan (M : libm) (ppring : Z) (p0 : float)
    (stride_lon stride_lat : Z) :
  (exists w : float,
     sharp_make_hw_geom_info M 1 ppring p0 stride_lon stride_lat
     = Returned (GeomArgs 1 [Ring nan ppring p0 0 stride_lon w])) /\
  ((nan <? pi) = false /\ (0 <? nan) = false) /\
  (hw_theta 5 <$> seqZ 0 5
   = [1e-15; 0x1.921fb54442d18p-1; 0x1.921fb54442d18p+0;
      0x1.2d97c7f3321d2p+1; pi - 1e-15] /\
   Forall (fun m => (hw_theta 5 m <? hw_theta 5 (m + 1)) = true) (seqZ 0 4) /\
   Forall (fun m => hw_theta 5 m + hw_theta 5 (4 - m) = pi) (seqZ 0 5)).
Proof.
  split; [eexists; reflexivity|].
  split; [split; reflexivity|].
  split; [reflexivity|].
  split; repeat constructor.
Qed.

End DriscollHealy.

(** ** Colatitudes of the equiangular grid with three rings or more *)

(** A number clamped as [sharp_make_hw_geom_info] does it lies between
    the two bounds. *)
Lemma clamp_between (t : float) :
  is_nan t = false ->
  let t1 := if (t <? 1e-15)%float then 1e-15%float else t in
  let r := if (pi - 1e-15 <? t1)%float then (pi - 1e-15)%float else t1 in
  (1e-15 <=? r)%float = true /\ (r <=? pi - 1e-15)%float = true.
Proof.
  intros Ht. cbv zeta. destruct (t <? 1e-15)%float eqn:Hlo.
  - split; reflexivity.
  - apply ltb_false_leb in Hlo; [|exact Ht|reflexivity].
    destruct (pi - 1e-15 <? t)%float eqn:Hhi.
    + split; reflexivity.
    + apply ltb_false_leb in Hhi; [|reflexivity|exact Ht].
      split; assumption.
Qed.

(** [nrings-1.] is a positive number or [+infinity] for two rings or more. *)
Lemma hw_divisor_positive (nrings : Z) :
  2 <= nrings <= INT_MAX ->
  match Prim2SF (Z2F nrings - 1)%float with
  | S754_finite s _ _ | S754_infinity s => s = false
  | _ => False
  end.
Proof.
  unfold INT_MAX. intros Hn. rewrite sub_spec.
  change (Prim2SF 1) with (S754_finite false 4503599627370496 (-52)).
  destruct (Prim2SF_Z2F nrings) as (my & -> & Hdy); [lia|].
  assert (HD : 2 <= Zdigits2 nrings <= 31).
  { split; [|apply Zdigits2_le; lia].
    destruct nrings as [|p|p]; try lia. pose proof (Zdigits2_gt p) as Hgt.
    destruct (Z.le_gt_cases 2 (Zdigits2 (Z.pos p))) as [Hle|Hlt]; [exact Hle|].
    pose proof (Zdigits2_nonneg (Z.pos p)).
    assert (2 ^ Zdigits2 (Z.pos p) <= 2 ^ 1) by (apply Z.pow_le_mono_r; lia).
    change (2 ^ 1) with 2 in *. lia. }
  set (D := Zdigits2 nrings) in *.
  pose proof (Zdigits2_ge my) as Hlo. rewrite Hdy in Hlo.
  change (2 ^ (53 - 1)) with 4503599627370496 in Hlo.
  unfold SF64sub, SFsub. rewrite Z.min_r by lia.
  unfold shl_align at 1 2.
  replace (-52 - -52) with 0 by lia.
  destruct (-52 - (D - 53)) as [|d|d] eqn:Hd; try lia.
  cbn [fst cond_Zopp].
  pose proof (Zpos_iter_xO my d) as Hshift.
  assert (Hpow : 2 <= 2 ^ Z.pos d).
  { change 2 with (2 ^ 1) at 1. apply Z.pow_le_mono_r; lia. }
  destruct (Z.pos (Pos.iter xO my d) - 4503599627370496) as [|p|p] eqn:Hp;
    try nia.
  unfold binary_normalize, binary_round.
  destruct (shl_align p (-52)
              (fexp prec emax (Z.pos (digits2_pos p) + -52)))
    as [mz ez] eqn:Halign.
  apply binary_round_aux_pos; [lia|].
  unfold shl_align in Halign.
  unfold fexp, emin in Halign. change prec with 53 in Halign.
  change emax with 1024 in Halign.
  destruct (Z.max (Z.pos (digits2_pos p) + -52 - 53) (3 - 1024 - 53) - -52);
    injection Halign as <- <-; lia.
Qed.

(** [pi*m/(nrings-1.)] is a number for every ring of a grid with two rings
    or more. *)
Lemma hw_quotient_not_nan (nrings m : Z) :
  2 <= nrings <= INT_MAX -> 0 <= m < nrings ->
  is_nan (pi * Z2F m / (Z2F nrings - 1))%float = false.
Proof.
  intros Hn Hm. pose proof (hw_divisor_positive nrings Hn) as Hy.
  unfold INT_MAX in Hn.
  rewrite is_nan_spec, div_spec, mul_spec.
  change (Prim2SF pi) with (S754_finite false 7074237752028440 (-51)).
  destruct (Prim2SF (Z2F nrings - 1)%float) as [sy|sy| |sy my' ey'];
    try contradiction.
  - (* an infinite divisor *)
    destruct (SF64mul (S754_finite false 7074237752028440 (-51))
                (Prim2SF (Z2F m))) as [sa|sa| |sa ma ea] eqn:Ha;
      try reflexivity.
    + exfalso. destruct m as [|p|p]; try lia; [discriminate|].
      destruct (Prim2SF_Z2F (Z.pos p)) as (mm & Hmm & Hdm); [lia|].
      rewrite Hmm in Ha. unfold SF64mul, SFmul in Ha.
      pose proof (Zdigits2_gt mm) as Hhi. rewrite Hdm in Hhi.
      assert (Hdp : Zdigits2 (Z.pos p) <= 31) by (apply Zdigits2_le; lia).
      pose proof (Zdigits2_nonneg (Z.pos p)).
      pose proof (binary_round_aux_bound (xorb false false)
                    (Z.pos (7074237752028440 * mm))
                    (-51 + (Zdigits2 (Z.pos p) - 53)) loc_Exact 106) as Hb.
      rewrite Ha in Hb.
      change (2 ^ 53) with 9007199254740992 in Hhi.
      change (2 ^ 106) with 81129638414606681695789005144064 in Hb.
      rewrite Pos2Z.inj_mul in Hb.
      specialize (Hb ltac:(lia) ltac:(lia) ltac:(lia)). lia.
    + exfalso. destruct m as [|p|p]; try lia; [discriminate|].
      destruct (Prim2SF_Z2F (Z.pos p)) as (mm & Hmm & Hdm); [lia|].
      rewrite Hmm in Ha. unfold SF64mul, SFmul in Ha.
      refine (binary_round_aux_not_nan _ _ _ _ _ Ha). lia.
  - (* a finite divisor *)
    destruct (SF64mul (S754_finite false 7074237752028440 (-51))
                (Prim2SF (Z2F m))) as [sa|sa| |sa ma ea] eqn:Ha.
    + reflexivity.
    + reflexivity.
    + exfalso. destruct m as [|p|p]; try lia; [discriminate|].
      destruct (Prim2SF_Z2F (Z.pos p)) as (mm & Hmm & Hdm); [lia|].
      rewrite Hmm in Ha. unfold SF64mul, SFmul in Ha.
      refine (binary_round_aux_not_nan _ _ _ _ _ Ha). lia.
    + pose proof (SFdiv_finite_not_nan sa sy ma my' ea ey') as Hq.
      destruct (SF64div (S754_finite sa ma ea) (S754_finite sy my' ey'));
        [reflexivity|reflexivity|contradiction|reflexivity].
Qed.

(** For every ring of an equiangular grid with two rings or more the
    colatitude lies between the two clamp bounds. *)
Lemma hw_theta_between (nrings m : Z) :
  2 <= nrings <= INT_MAX -> 0 <= m < nrings ->
  (1e-15 <=? hw_theta nrings m)%float = true /\
  (hw_theta nrings m <=? pi - 1e-15)%float = true.
Proof.
  intros Hn Hm. unfold hw_theta.
  apply (clamp_between (pi * Z2F m / (Z2F nrings - 1))%float).
  apply hw_quotient_not_nan; assumption.
Qed.

(** X1.  For an odd ring count [3 <= nrings <= INT_MAX] every ring that
    [sharp_make_hw_geom_info] hands to [sharp_make_geom_info] has a
    colatitude between the clamp bounds [1e-15] and [pi - 1e-15]. *)
Theorem hw_colatitudes_clamped (M : libm) (nrings ppring : Z) (p0 : float)
    (stride_lon stride_lat : Z) (g : geom_args) (i : nat) (r : ring) :
  3 <= nrings <= INT_MAX -> Z.odd nrings = true ->
  sharp_make_hw_geom_info M nrings ppring p0 stride_lon stride_lat = Returned g ->
  rings g !! i = Some r ->
  (1e-15 <=? theta r)%float = true /\ (theta r <=? pi - 1e-15)%float = true.
Proof.
  intros Hn Hodd Hrun Hr. pose proof (hw_geom_info_Returned _ _ _ _ _ _ _ Hrun) as Hnonneg.
  rewrite hw_geom_info_nonneg in Hrun by exact Hnonneg.
  rewrite land_1_odd, Hodd in Hrun. injection Hrun as <-.
  cbn [rings] in Hr. apply lookup_tabulate in Hr as [-> Hi].
  cbn [theta]. apply hw_theta_between; lia.
Qed.

(** X1 at five rings: the colatitude of the middle ring. *)
Lemma hw_colatitudes_clamped_5 :
  3 <= 5 <= INT_MAX /\
  exists (g : geom_args) (r : ring),
    sharp_make_hw_geom_info libm_ref 5 8 0%float 1 8 = Returned g /\
    rings g !! 2%nat = Some r /\
    (1e-15 <=? theta r)%float = true /\ (theta r <=? pi - 1e-15)%float = true.
Proof.
  split; [unfold INT_MAX; lia|].
  eexists _, _. split; [reflexivity|]. split; [reflexivity|].
  eapply (hw_colatitudes_clamped libm_ref 5 8 0%float 1 8 _ 2%nat);
    [unfold INT_MAX; lia|reflexivity|reflexivity|reflexivity].
Defined.

(** X14. For every ring count [2 <= nrings <= INT_MAX] the colatitude of
    the first ring is exactly the lower clamp bound [1e-15]:
    [pi*0/(nrings-1.)] is a zero, which the clamp replaces. *)
Theorem hw_first_colatitude (nrings : Z) :
  2 <= nrings <= INT_MAX -> hw_theta nrings 0 = 1e-15%float.
Proof.
  intros Hn. unfold hw_theta. cbv zeta.
  change (pi * Z2F 0)%float with 0%float.
  assert (Hz : exists s, Prim2SF (0 / (Z2F nrings - 1))%float = S754_zero s).
  { rewrite div_spec. pose proof (hw_divisor_positive nrings Hn) as Hd.
    change (Prim2SF 0) with (S754_zero false).
    destruct (Prim2SF (Z2F nrings - 1)%float) as [s|s| |s m e];
      try contradiction; eexists; reflexivity. }
  destruct Hz as [s Hz].
  assert (Hlt : (0 / (Z2F nrings - 1) <? 1e-15)%float = true).
  { rewrite ltb_spec, Hz. destruct s; reflexivity. }
  rewrite Hlt. reflexivity.
Qed.

(** X14 at three rings. *)
Lemma hw_first_colatitude_3 :
  2 <= 3 <= INT_MAX /\ hw_theta 3 0 = 1e-15%float.
Proof.
  split; [unfold INT_MAX; lia|]. apply hw_first_colatitude. unfold INT_MAX; lia.
Defined.

(** ** Weights of the equiangular grid *)

(** The factor [eps(m,2*lmax)] of the weights is [0.5] for the first and
    the last ring and [1] for every other ring. *)
Lemma hw_prefactor_halved_at_poles (n m : Z) :
  1 <= n <= INT_MAX -> Z.odd n = true -> 0 <= m < n ->
  eps m (int32 (2 * Z.quot (int32 (n - 1)) 2)) =
  if (m =? 0) || (m =? n - 1) then 0.5%float else 1%float.
Proof.
  unfold INT_MAX. intros Hn Hodd Hm.
  rewrite (int32_small (n - 1)) by (simpl; lia).
  rewrite Z.quot_div_nonneg by lia.
  assert (H2 : 2 * ((n - 1) / 2) = n - 1).
  { pose proof (Z.div_mod (n - 1) 2 ltac:(lia)) as Hdm.
    pose proof (Zmod_odd (n - 1)) as Ho.
    replace (Z.odd (n - 1)) with false in Ho.
    - lia.
    - rewrite Z.sub_1_r, Z.odd_pred, <- Z.negb_odd, Hodd. reflexivity. }
  rewrite H2, int32_small by (simpl; lia).
  unfold eps. destruct ((m =? 0) || (m =? n - 1)) eqn:E; [reflexivity|].
  apply orb_false_iff in E as [E1 E2].
  replace (0 <? m) with true by (symmetry; apply Z.ltb_lt; lia).
  replace (m <? n - 1) with true by (symmetry; apply Z.ltb_lt; lia).
  reflexivity.
Qed.

(** X13. For an odd ring count [1 <= n <= INT_MAX] the weight of ring [m]
    is [4*pi*e/lmax] times the sum over [l], divided by [ppring], with
    [lmax = (n-1)/2] and [e = 0.5] for the first and the last ring and [e
    = 1] for every other ring: [eps(m,2*lmax)] never takes its third value
    0. *)
Theorem hw_geom_info_weights (M : libm) (n ppring : Z) (p0 : float)
    (stride_lon stride_lat : Z) (g : geom_args) (i : nat) (r : ring) :
  1 <= n <= INT_MAX -> Z.odd n = true ->
  sharp_make_hw_geom_info M n ppring p0 stride_lon stride_lat = Returned g ->
  rings g !! i = Some r ->
  let m := Z.of_nat i in
  let lmax := (n - 1) / 2 in
  weight r =
  (4 * pi * (if (m =? 0)%Z || (m =? n - 1)%Z then 0.5 else 1) / Z2F lmax
   * hw_sum M (Z.to_nat (lmax + 1)) 0 lmax m 0 / Z2F ppring)%float.
Proof.
  intros Hn Hodd Hg Hr. cbv zeta. pose proof (hw_geom_info_Returned _ _ _ _ _ _ _ Hg) as Hnonneg.
  rewrite hw_geom_info_nonneg in Hg by exact Hnonneg.
  rewrite land_1_odd, Hodd in Hg. injection Hg as <-.
  cbn [rings] in Hr. apply lookup_tabulate in Hr as [-> Hi].
  cbn [weight]. unfold hw_weight. cbv zeta.
  rewrite (hw_prefactor_halved_at_poles n (Z.of_nat i) Hn Hodd ltac:(lia)).
  unfold INT_MAX in Hn.
  rewrite (int32_small (n - 1)) by (simpl; lia).
  rewrite Z.quot_div_nonneg by lia. reflexivity.
Qed.

(** X13 at five rings: the last ring. *)
Lemma hw_geom_info_weights_5 :
  1 <= 5 <= INT_MAX /\ Z.odd 5 = true /\
  exists (g : geom_args) (r : ring),
    sharp_make_hw_geom_info libm_ref 5 8 0 1 8 = Returned g /\
    rings g !! 4%nat = Some r /\
    weight r =
    (4 * pi * (if (Z.of_nat 4 =? 0)%Z || (Z.of_nat 4 =? 5 - 1)%Z then 0.5 else 1)
     / Z2F ((5 - 1) / 2)
     * hw_sum libm_ref (Z.to_nat ((5 - 1) / 2 + 1)) 0 ((5 - 1) / 2) (Z.of_nat 4) 0
     / Z2F 8)%float.
Proof.
  split; [unfold INT_MAX; lia|]. split; [reflexivity|].
  eexists _, _. split; [reflexivity|]. split; [reflexivity|].
  eapply (hw_geom_info_weights libm_ref 5 8 0 1 8 _ 4%nat);
    [unfold INT_MAX; lia|reflexivity|reflexivity|reflexivity].
Defined.

Lemma hw_sum_exact (M : libm) (lmax m : Z) (cnt : nat) :
  forall (l : Z) (wgt : float),
    lmax <= 23170 -> 0 <= l -> l + Z.of_nat cnt <= lmax + 1 ->
    hw_sum M cnt l lmax m wgt =
    fold_left
      (fun acc l =>
         acc + eps l lmax / Z2F (1 - 4 * l * l)
               * m_cos M (pi * Z2F m * Z2F l / Z2F lmax))%float
      (seqZ l (Z.of_nat cnt)) wgt.
Proof.
  induction cnt as [|cnt IH]; intros l wgt Hlmax Hl Hle.
  - reflexivity.
  - cbn [hw_sum].
    rewrite seqZ_cons by lia. cbn [fold_left].
    replace (Z.pred (Z.of_nat (S cnt))) with (Z.of_nat cnt) by lia.
    rewrite IH by lia.
    rewrite (int32_small (1 - 4 * l * l)) by (simpl; nia).
    reflexivity.
Qed.

(** X20. Up to [lmax = 23170], that is for equiangular grids of up to
    46341 rings, the integer [1-4*l*l] fits an [int] for every [l]: the
    sum of a ring's weight is the sum of [eps(l,lmax)/(1-4*l*l) *
    cos(pi*m*l/lmax)] over [0 <= l <= lmax], added up in this order from
    0. *)
Theorem hw_sum_exact_integers (M : libm) (lmax m : Z) :
  0 <= lmax <= 23170 ->
  hw_sum M (Z.to_nat (lmax + 1)) 0 lmax m 0 =
  fold_left
    (fun acc l =>
       acc + eps l lmax / Z2F (1 - 4 * l * l)
             * m_cos M (pi * Z2F m * Z2F l / Z2F lmax))%float
    (seqZ 0 (lmax + 1)) 0%float.
Proof.
  intros Hl. rewrite (hw_sum_exact M lmax m) by lia.
  rewrite Z2Nat.id by lia. reflexivity.
Qed.

(** X20 at [lmax = 2] and ring 1. *)
Lemma hw_sum_exact_integers_2 :
  0 <= 2 <= 23170 /\
  hw_sum libm_ref (Z.to_nat (2 + 1)) 0 2 1 0 =
  fold_left
    (fun acc l =>
       acc + eps l 2 / Z2F (1 - 4 * l * l)
             * m_cos libm_ref (pi * Z2F 1 * Z2F l / Z2F 2))%float
    (seqZ 0 (2 + 1)) 0%float.
Proof.
  split; [lia|]. apply (hw_sum_exact_integers libm_ref 2 1). lia.
Defined.

(** ** The longitude of the first pixel *)

Section LongitudeBounds.

Local Open Scope float_scope.

(** [pi/k] for an integer [4 <= k < 2^31] is a double in [[0, 2*pi)]. *)
Lemma pi_div_in_0_2pi (k : Z) :
  (4 <= k < 2 ^ 31)%Z -> in_0_2pi (pi / Z2F k) = true.
Proof.
  intros Hk. unfold in_0_2pi. rewrite leb_spec, ltb_spec, div_spec.
  destruct (Prim2SF_Z2F k) as (my & Hy & Hdig); [lia|]. rewrite Hy.
  change (Prim2SF pi) with (S754_finite false 7074237752028440 (-51)).
  change (Prim2SF 0) with (S754_zero false).
  change (Prim2SF (2 * pi)) with (S754_finite false 7074237752028440 (-50)).
  assert (HD : (3 <= Zdigits2 k <= 31)%Z).
  { split; [|apply Zdigits2_le; lia].
    destruct k as [|p|p]; try lia. pose proof (Zdigits2_gt p) as Hgt.
    destruct (Z.le_gt_cases 3 (Zdigits2 (Z.pos p))) as [Hle|Hlt]; [exact Hle|].
    pose proof (Zdigits2_nonneg (Z.pos p)).
    assert (2 ^ Zdigits2 (Z.pos p) <= 2 ^ 2)%Z
      by (apply Z.pow_le_mono_r; lia).
    change (2 ^ 2)%Z with 4%Z in *. lia. }
  set (D := Zdigits2 k) in *.
  pose proof (Zdigits2_ge my) as Hlo. pose proof (Zdigits2_gt my) as Hhi.
  rewrite Hdig in Hlo, Hhi.
  unfold SF64div, SFdiv, SFdiv_core_binary. rewrite Hdig.
  change (Zdigits2 7074237752028440) with 53%Z.
  replace (Z.min (fexp prec emax (53 + -51 - (53 + (D - 53)))) (-51 - (D - 53)))
    with (-51 - D)%Z
    by (unfold fexp, emin; change prec with 53%Z; change emax with 1024%Z; lia).
  replace (-51 - (D - 53) - (-51 - D))%Z with 53%Z by lia.
  cbv iota.
  pose proof (Z_div_mod (Z.shiftl 7074237752028440 53) (Z.pos my)) as Hdiv.
  destruct (Z.div_eucl (Z.shiftl 7074237752028440 53) (Z.pos my))
    as [q r]. destruct Hdiv as [Hdiv Hr]; [lia|].
  change (Z.shiftl 7074237752028440 53)
    with (7074237752028440 * 2 ^ 53)%Z in Hdiv.
  change (xorb false false) with false.
  assert (Hq : (0 <= q < 2 ^ 54)%Z).
  { change (2 ^ (53 - 1))%Z with 4503599627370496%Z in Hlo.
    change (2 ^ 53)%Z with 9007199254740992%Z in *.
    change (2 ^ 54)%Z with 18014398509481984%Z. nia. }
  pose proof (binary_round_aux_bound false q (-51 - D)
                (new_location (Z.pos my) r) 54 Hq) as Hround.
  destruct (binary_round_aux prec emax false q (-51 - D)
              (new_location (Z.pos my) r)) as [s|s| |s m e].
  - rewrite Hround by lia. reflexivity.
  - lia.
  - destruct Hround; lia.
  - destruct Hround as [-> He]; [lia|lia|].
    assert (Hcmp : (e ?= -50)%Z = Lt) by (apply Z.compare_lt_iff; lia).
    unfold SFleb, SFltb, SFcompare. rewrite Hcmp. reflexivity.
Qed.

End LongitudeBounds.

Section Longitudes.

Context (M : libm) (uninit : float).

Lemma healpix_ring_phi0 (nside stride : Z) (w : list float) (npix ncap m : Z) :
  0 < nside < 2 ^ 29 -> 0 <= m < 4 * nside - 1 ->
  phi0 (healpix_ring M uninit nside stride w npix ncap m) = 0%float \/
  exists k : Z, 4 <= k < 2 ^ 31 /\
    phi0 (healpix_ring M uninit nside stride w npix ncap m)
    = (pi / Z2F k)%float.
Proof.
  intros Hn Hm. unfold healpix_ring. cbv zeta.
  change (2 ^ 29) with 536870912 in Hn. change (2 ^ 31) with 2147483648.
  unwrap.
  destruct (m + 1 >? 2 * nside) eqn:E1.
  - unwrap. destruct (4 * nside - (m + 1) <? nside) eqn:E2;
      destruct (negb (4 * nside - (m + 1) =? m + 1)); simpl; unwrap.
    all: try (right; eexists; split; [|reflexivity]; lia).
    all: destruct (negb (Z.land (4 * nside - (m + 1) - nside) 1 =? 0));
      [left; reflexivity|right; eexists; split; [|reflexivity]; lia].
  - destruct (m + 1 <? nside) eqn:E2;
      destruct (negb (m + 1 =? m + 1)); simpl; unwrap.
    all: try (right; eexists; split; [|reflexivity]; lia).
    all: destruct (negb (Z.land (m + 1 - nside) 1 =? 0));
      [left; reflexivity|right; eexists; split; [|reflexivity]; lia].
Qed.

(** C9, as the code has it.  Every ring of a HEALPix geometry
    ([0 < nside < 2^29]) and of a Gauss geometry has [phi0] in
    [[0, 2*pi)]; every ring of the two equidistant geometries has the
    [phi0] the caller passed, whatever it is. *)
Theorem phi0_of_each_builder :
  (forall (nside stride : Z) (w : list float) (g : geom_args) (i : nat)
          (r : ring),
     0 < nside < 2 ^ 29 ->
     sharp_make_weighted_healpix_geom_info M uninit nside stride w = Returned g ->
     rings g !! i = Some r -> in_0_2pi (phi0 r) = true) /\
  (forall (nside stride : Z) (g : geom_args) (i : nat) (r : ring),
     0 < nside < 2 ^ 29 ->
     sharp_make_healpix_geom_info M uninit nside stride = Returned g ->
     rings g !! i = Some r -> in_0_2pi (phi0 r) = true) /\
  (forall (nrings nphi stride_lon stride_lat : Z) (g : geom_args) (i : nat)
          (r : ring),
     sharp_make_gauss_geom_info M uninit nrings nphi stride_lon stride_lat
     = Returned g ->
     rings g !! i = Some r ->
     phi0 r = 0%float /\ in_0_2pi (phi0 r) = true) /\
  (forall (nrings nphi : Z) (p0 : float) (stride_lon stride_lat : Z)
          (g : geom_args) (i : nat) (r : ring),
     sharp_make_ecp_geom_info M uninit nrings nphi p0 stride_lon stride_lat
     = Returned g ->
     rings g !! i = Some r -> phi0 r = p0) /\
  (forall (nrings ppring : Z) (p0 : float) (stride_lon stride_lat : Z)
          (g : geom_args) (i : nat) (r : ring),
     sharp_make_hw_geom_info M nrings ppring p0 stride_lon stride_lat
     = Returned g ->
     rings g !! i = Some r -> phi0 r = p0).
Proof.
  assert (Hw : forall (nside stride : Z) (w : list float) (g : geom_args)
                 (i : nat) (r : ring),
             0 < nside < 2 ^ 29 ->
             sharp_make_weighted_healpix_geom_info M uninit nside stride w
             = Returned g ->
             rings g !! i = Some r -> in_0_2pi (phi0 r) = true).
  { intros nside stride w g i r Hn Hg Hr.
    rewrite weighted_healpix_in_range in Hg by exact Hn.
    injection Hg as <-. cbn [rings] in Hr.
    rewrite int32_small in Hr
      by (change (2 ^ 29) with 536870912 in Hn; simpl; lia).
    apply lookup_tabulate in Hr as [-> Hi].
    destruct (healpix_ring_phi0 nside stride w
                (int64 (nside * nside * 12))
                (int64 (2 * nside * int32 (nside - 1))) (Z.of_nat i))
      as [->|(k & Hk & ->)]; [exact Hn|lia|reflexivity|].
    apply pi_div_in_0_2pi, Hk. }
  split; [exact Hw|]. split; [|split; [|split]].
  - intros nside stride g i r Hn Hrun.
    rewrite healpix_in_range in Hrun
      by (change (2 ^ 29) with 536870912 in Hn; change (2 ^ 30) with 1073741824;
          lia).
    eapply Hw; [exact Hn|exact Hrun].
  - intros nrings nphi stride_lon stride_lat g i r Hrun Hr.
    pose proof (gauss_geom_info_Returned _ _ _ _ _ _ _ Hrun) as Hnonneg.
    rewrite gauss_geom_info_nonneg in Hrun by exact Hnonneg.
    destruct (GaussLegendre.gauss_legendre_tbl M nrings
                (replicate (Z.to_nat nrings) uninit) (replicate (Z.to_nat nrings) uninit))
      as [[th wt]|msg]; [|discriminate].
    injection Hrun as <-. cbn [rings] in Hr.
    apply lookup_tabulate in Hr as [-> _]. split; reflexivity.
  - intros nrings nphi p0 stride_lon stride_lat g i r Hrun Hr.
    pose proof (ecp_geom_info_Returned _ _ _ _ _ _ _ _ Hrun) as Hnonneg.
    rewrite ecp_geom_info_nonneg in Hrun by exact Hnonneg.
    destruct (negb (Z.land nrings 1 =? 0)); [discriminate|].
    injection Hrun as <-. cbn [rings] in Hr.
    apply lookup_tabulate in Hr as [-> _]. reflexivity.
  - intros nrings ppring p0 stride_lon stride_lat g i r Hrun Hr.
    pose proof (hw_geom_info_Returned _ _ _ _ _ _ _ Hrun) as Hnonneg.
    rewrite hw_geom_info_nonneg in Hrun by exact Hnonneg.
    destruct (negb (Z.land nrings 1 =? 1)); [discriminate|].
    injection Hrun as <-. cbn [rings] in Hr.
    apply lookup_tabulate in Hr as [-> _]. reflexivity.
Qed.

End Longitudes.

(** C9 at [nside = 1] and at a two-ring cylindrical grid with [phi0 = 1]. *)
Lemma phi0_of_each_builder_examples :
  exists g g' : geom_args,
    sharp_make_healpix_geom_info libm_ref 0%float 1 1 = Returned g /\
    Forall (fun r => in_0_2pi (phi0 r) = true) (rings g) /\
    sharp_make_ecp_geom_info libm_ref 0%float 2 4 1%float 1 4 = Returned g' /\
    Forall (fun r => phi0 r = 1%float) (rings g').
Proof.
  destruct (phi0_of_each_builder libm_ref 0%float)
    as (_ & Hhp & _ & Hecp & _).
  eexists _, _. split; [reflexivity|]. split; [|split; [reflexivity|]].
  - apply Forall_lookup. intros i r Hr.
    eapply (Hhp 1 1); [lia|reflexivity|exact Hr].
  - apply Forall_lookup. intros i r Hr.
    eapply (Hecp 2 4 1%float 1 4); [reflexivity|exact Hr].
Defined.

(** C9, as stated, fails: the equidistant builders copy the caller's
    [phi0] into every ring as it is.  With [phi0 = 7] every ring of the
    two-ring cylindrical grid has [phi0 = 7 > 2*pi], and with [phi0 = -1]
    every ring of the three-ring equiangular grid has [phi0 = -1 < 0]. *)
Lemma equidistant_phi0_outside_0_2pi :
  exists g g' : geom_args,
    (sharp_make_ecp_geom_info libm_ref 0%float 2 4 7%float 1 4 = Returned g) /\
    (phi0 <$> rings g) = [7; 7]%float /\
    (in_0_2pi 7 = false) /\
    (sharp_make_hw_geom_info libm_ref 3 4 (-1)%float 1 4 = Returned g') /\
    (phi0 <$> rings g') = [-1; -1; -1]%float /\
    (in_0_2pi (-1) = false).
Proof.
  eexists _, _. split; [reflexivity|]. split; [reflexivity|].
  split; [reflexivity|]. split; [reflexivity|]. split; reflexivity.
Qed.
